(** * shared_memory.h: a single-segment producer/consumer channel

    A shallow embedding of [shared_memory.h]: one POSIX shared-memory
    segment guarded by two named semaphores, with a chunking layer
    ([send_item] / [recv_item]) on top of the raw fragment transactions
    ([write_shared_memory] / [read_shared_memory]) and the life-cycle
    calls ([create_shared_memory], [open_shared_memory],
    [close_shared_memory]).

    Integers of the C program are [Z] with the wrap-around of their type
    written out; buffers are lists of bytes; the heap of the consumer, the
    semaphores and the name space of the operating system are explicit
    state. *)

From Stdlib Require Import ZArith Lia Bool.
From Stdlib Require Import Strings.Byte.
From stdpp Require Import base option list gmap strings.

Local Open Scope Z_scope.

(** ** Build-time constants *)

(** [MAX_BYTES] is the tunable macro of the header; the three [sizeof]
    values are fixed by the platform the header is compiled for. *)
Record config : Type := Config {
  MAX_BYTES : Z;
  sizeof_unsigned : Z;
  sizeof_size_t : Z;
  sizeof_ptr : Z
}.

(** The header as shipped, on an LP64 platform (Linux or Darwin, 64 bit). *)
Definition LP64 : config :=
  {| MAX_BYTES := 4000000; sizeof_unsigned := 4; sizeof_size_t := 8; sizeof_ptr := 8 |}.

(** The header as shipped, on an ILP32 platform. *)
Definition ILP32 : config :=
  {| MAX_BYTES := 4000000; sizeof_unsigned := 4; sizeof_size_t := 4; sizeof_ptr := 4 |}.

(** A build with [MAX_BYTES] tuned down to 29, the least value that leaves
    room for a payload: [maxlen] is 1. *)
Definition narrow : config :=
  {| MAX_BYTES := 29; sizeof_unsigned := 4; sizeof_size_t := 8; sizeof_ptr := 8 |}.

(** A build with [MAX_BYTES] tuned down to 32, used to run multi-fragment
    transfers on short messages. *)
Definition tiny : config :=
  {| MAX_BYTES := 32; sizeof_unsigned := 4; sizeof_size_t := 8; sizeof_ptr := 8 |}.

Section Constants.
Variable c : config.

Definition SIZE_MOD : Z := 2 ^ (8 * sizeof_size_t c).
Definition UINT_MOD : Z := 2 ^ (8 * sizeof_unsigned c).
Definition PTRDIFF_MAX : Z := 2 ^ (8 * sizeof_size_t c - 1) - 1.

(** Conversion to [size_t] and to [unsigned]: reduction modulo the width. *)
Definition to_size_t (z : Z) : Z := z mod SIZE_MOD.
Definition to_unsigned (z : Z) : Z := z mod UINT_MOD.

(** [id], [chunk_size] and [total], in this order, precede the payload. *)
Definition header_size : Z := sizeof_unsigned c + sizeof_size_t c + sizeof_size_t c.

(** The constant [maxlen] of the header: [MAX_BYTES] less the size of an
    [unsigned], of two [size_t] and of a pointer, in [size_t] arithmetic. *)
Definition maxlen : Z :=
  to_size_t (MAX_BYTES c - sizeof_unsigned c - sizeof_size_t c * 2 - sizeof_ptr c).

(** The bound of the assertion in [write_shared_memory]:
    [MAX_BYTES - sizeof(size_t) * 2 - sizeof(unsigned)]. *)
Definition write_bound : Z :=
  to_size_t (MAX_BYTES c - sizeof_size_t c * 2 - sizeof_unsigned c).

(** Bytes of the mapping that follow the header. *)
Definition payload_capacity : Z := MAX_BYTES c - header_size.

(** [mmap] maps whole pages: the [MAX_BYTES] bytes asked for are rounded up
    to a multiple of the page size, and the bytes of the last page that lie
    behind the object read as zero. [page_size] is the page size of Linux
    and Darwin on x86-64; the larger page sizes in use are multiples of
    it, so that what lies inside the mapping here lies inside it there. *)
Definition page_size : Z := 4096.

Definition mapping_size : Z :=
  page_size * ((MAX_BYTES c + page_size - 1) / page_size).

(** A platform on which the header makes sense: positive type sizes, a
    segment that has room for the header, a pointer and one byte of
    payload, and a [MAX_BYTES] that is a valid object size. *)
Definition config_ok : Prop :=
  0 < sizeof_unsigned c /\ 0 < sizeof_size_t c /\ 0 < sizeof_ptr c /\
  header_size + sizeof_ptr c < MAX_BYTES c /\ MAX_BYTES c <= PTRDIFF_MAX.
End Constants.

(** ** Semaphores *)

(** [sem_wait] takes one unit when there is one, and blocks ([None])
    otherwise; [sem_post] adds one unit. *)
Definition sem_wait (v : Z) : option Z := if 0 <? v then Some (v - 1) else None.
Definition sem_post (v : Z) : Z := v + 1.

(** ** The segment and the channel *)

(** The mapped region: the three header words and the payload area. The
    payload area is kept as the list of its leading bytes; the bytes
    behind the end of the list, up to the end of the mapping, are zero. *)
Record segment : Type := Segment {
  seg_id : Z;
  seg_len : Z;
  seg_total : Z;
  seg_payload : list byte
}.

(** [memset(self->data, 0, MAX_BYTES)], and also a freshly sized object. *)
Definition zero_segment : segment := Segment 0 0 0 [].

(** One completed write transaction: the arguments [id], [len], [total]
    and the [len] bytes copied. *)
Record fragment : Type := Fragment {
  frag_id : Z;
  frag_len : Z;
  frag_total : Z;
  frag_payload : list byte
}.

(** What both ends of a channel share: the counts of the two semaphores
    and the segment. [written] is a history of the completed writes; no
    operation reads it. *)
Record chan : Type := Chan {
  r_sem : Z;
  w_sem : Z;
  seg : segment;
  written : list fragment
}.

(** The state [create_shared_memory] leaves behind: (R,W) = (0,1). *)
Definition fresh_chan : chan := Chan 0 1 zero_segment [].

(** ** The heap of the consumer *)

(** A pointer variable: not yet assigned, [NULL], or a block of the heap. *)
Inductive ptr : Type := PUninit | PNull | PBlock (b : nat).

(** Live blocks with their contents ([None] is an indeterminate byte), the
    next fresh block, and the outcomes of the allocations to come
    ([true]: that allocation fails; past the end of the list none does). *)
Record heap : Type := Heap {
  blocks : gmap nat (list (option byte));
  next_block : nat;
  alloc_fails : list bool
}.

Definition empty_heap (fails : list bool) : heap := Heap ∅ 0%nat fails.

Definition malloc (h : heap) (n : Z) : heap * ptr :=
  match alloc_fails h with
  | true :: rest => (Heap (blocks h) (next_block h) rest, PNull)
  | _ =>
      (Heap (<[next_block h := replicate (Z.to_nat n) None]> (blocks h))
            (S (next_block h)) (tail (alloc_fails h)),
       PBlock (next_block h))
  end.

(** [free]: a no-op on [NULL]; undefined ([None]) on a pointer that is
    uninitialised or already freed. *)
Definition free (h : heap) (p : ptr) : option heap :=
  match p with
  | PUninit => None
  | PNull => Some h
  | PBlock b =>
      match blocks h !! b with
      | Some _ => Some (Heap (delete b (blocks h)) (next_block h) (alloc_fails h))
      | None => None
      end
  end.

(** Reading [n] bytes at the start of a block. *)
Definition load (h : heap) (p : ptr) (n : Z) : option (list (option byte)) :=
  match p with
  | PBlock b =>
      match blocks h !! b with
      | Some bs => if n <=? Z.of_nat (length bs) then Some (take (Z.to_nat n) bs) else None
      | None => None
      end
  | _ => None
  end.

(** Writing the bytes [src] at offset [off] of a block. *)
Definition store (h : heap) (p : ptr) (off : Z) (src : list (option byte)) : option heap :=
  match p with
  | PBlock b =>
      match blocks h !! b with
      | Some bs =>
          if (0 <=? off) && (off + Z.of_nat (length src) <=? Z.of_nat (length bs)) then
            Some (Heap (<[b := take (Z.to_nat off) bs ++ src
                                 ++ drop (Z.to_nat off + length src) bs]> (blocks h))
                       (next_block h) (alloc_fails h))
          else None
      | None => None
      end
  | _ => None
  end.

(** [memcpy(dst + off, src, n)] between two blocks of the heap. *)
Definition memcpy (h : heap) (dst : ptr) (off : Z) (src : ptr) (n : Z) : option heap :=
  match load h src n with
  | Some bs => store h dst off bs
  | None => None
  end.

(** [realloc(p, n)]: on failure [NULL] and the block is untouched; on
    success the block keeps its leading bytes. *)
Definition realloc (h : heap) (p : ptr) (n : Z) : option (heap * ptr) :=
  match p with
  | PBlock b =>
      match blocks h !! b with
      | Some bs =>
          match alloc_fails h with
          | true :: rest => Some (Heap (blocks h) (next_block h) rest, PNull)
          | _ => Some (Heap (<[b := resize (Z.to_nat n) None bs]> (blocks h))
                            (next_block h) (tail (alloc_fails h)), PBlock b)
          end
      | None => None
      end
  | _ => None
  end.

(** ** Fragment transactions *)

Inductive outcome (A : Type) : Type :=
| Blocked                (* waiting on a semaphore *)
| Aborted                (* an assertion failed *)
| Undefined              (* an access outside of an object *)
| Returned (a : A).
Arguments Blocked {A}.
Arguments Aborted {A}.
Arguments Undefined {A}.
Arguments Returned {A} a.

(** [sem_wait(self->w_sem)] *)
Definition beginWrite (ch : chan) : option chan :=
  match sem_wait (w_sem ch) with
  | Some w => Some (Chan (r_sem ch) w (seg ch) (written ch))
  | None => None
  end.

(** The four [memcpy] into the segment, then [sem_post(self->r_sem)]. *)
Definition endWrite (ch : chan) (data : list byte) (len id total : Z) : chan :=
  let bytes := take (Z.to_nat len) data in
  Chan (sem_post (r_sem ch)) (w_sem ch)
       (Segment id len total (bytes ++ drop (Z.to_nat len) (seg_payload (seg ch))))
       (written ch ++ [Fragment id len total bytes]).

(** [write_shared_memory(self, data, len, id, total)]: the assertion on
    [len], the wait on W, the copies and the post of R. [data] is the
    caller's buffer from the pointer on; copying more than it holds is
    undefined. The two [sem_getvalue] calls have no effect. Between the
    wait and the post the handshake keeps every other invocation out, so
    the call is taken as one step: it blocks, or it runs to its return. *)
Definition write_shared_memory (c : config) (ch : chan)
    (data : list byte) (len id total : Z) : outcome (Z * chan) :=
  if negb ((0 <? len) && (len <=? write_bound c)) then Aborted
  else
    match beginWrite ch with
    | None => Blocked
    | Some ch1 =>
        if Z.of_nat (length data) <? len then Undefined
        else Returned (0, endWrite ch1 data len id total)
    end.

(** [sem_wait(self->r_sem)] *)
Definition beginRead (ch : chan) : option chan :=
  match sem_wait (r_sem ch) with
  | Some r => Some (Chan r (w_sem ch) (seg ch) (written ch))
  | None => None
  end.

(** [memset(self->data, 0, MAX_BYTES); sem_post(self->w_sem);] *)
Definition endRead (ch : chan) : chan :=
  Chan (r_sem ch) (sem_post (w_sem ch)) zero_segment (written ch).

(** What [read_shared_memory] leaves in its out-parameters and in the
    heap. [rr_data] is the value of [*data] after the call: the value it
    had before when the call did not assign it. *)
Record read_result : Type := ReadResult {
  rr_rt : Z;
  rr_data : ptr;
  rr_len : Z;
  rr_total : Z;
  rr_id : Z;
  rr_heap : heap
}.

(** [read_shared_memory(self, &data, &len, &total_chunk, &id)]: the wait on
    R, the three header words, the check of the length against
    [MAX_BYTES], the allocation, the copy of [len] bytes from behind the
    header, then [memset] and the post of W. Both [return 1] leave the
    segment and W as they are. The copy takes the payload bytes and, behind
    them, zeros: for a length above [MAX_BYTES - header_size] the last
    bytes come from behind the [MAX_BYTES] bytes of the object, where the
    rest of the last page of the mapping reads as zero. Only a copy that
    leaves the mapping, [header_size + len > mapping_size], is a fault. *)
Definition read_shared_memory (c : config) (ch : chan) (h : heap) (data_in : ptr)
    : outcome (read_result * chan) :=
  match beginRead ch with
  | None => Blocked
  | Some ch1 =>
      let id := seg_id (seg ch1) in
      let len := seg_len (seg ch1) in
      let total_chunk := seg_total (seg ch1) in
      if (len <=? 0) || (MAX_BYTES c <? len) then
        Returned (ReadResult 1 data_in len total_chunk id h, ch1)
      else
        match malloc h len with
        | (h1, PBlock b) =>
            if mapping_size c <? header_size c + len then Undefined
            else
              match store h1 (PBlock b) 0
                      (Some <$> resize (Z.to_nat len) x00 (seg_payload (seg ch1))) with
              | Some h2 => Returned (ReadResult 0 (PBlock b) len total_chunk id h2, endRead ch1)
              | None => Undefined
              end
        | (h1, p) => Returned (ReadResult 1 p len total_chunk id h1, ch1)
        end
  end.

(** ** Programs over the channel *)

(** Why a program stopped without returning. *)
Inductive crash : Type := AssertFailed | UndefinedBehaviour.

(** A program of one end of the channel: it returns, stops, or sits at a
    call of one of the two fragment transactions, with the rest of the
    program waiting for the call's result. A call that blocks leaves the
    program where it is. *)
Inductive proc (A : Type) : Type :=
| Ret (a : A)
| Crash (why : crash)
| CallWrite (data : list byte) (len id total : Z) (k : Z -> proc A)
| CallRead (h : heap) (data_in : ptr) (k : read_result -> proc A).
Arguments Ret {A} a.
Arguments Crash {A} why.
Arguments CallWrite {A} data len id total k.
Arguments CallRead {A} h data_in k.

(** Heap operations inside a program: an undefined one stops it. *)
Notation "'let?' x := m 'in' k" :=
  (match m with Some x => k | None => Crash UndefinedBehaviour end)
  (at level 10, x pattern, m at level 100, k at level 200).

(** What [recv_item] hands back: its return value, [*data], [*len] (when
    assigned) and the heap it leaves. *)
Record recv_result : Type := RecvResult {
  rv_rc : Z;
  rv_data : ptr;
  rv_len : option Z;
  rv_heap : heap
}.

Section Transfer.
Variable c : config.

(** The number of fragments [send_item] computes for a payload of [len]
    bytes. *)
Definition send_chunks (len : Z) : Z :=
  let chunks := if maxlen c <? len then len / maxlen c else 1 in
  if to_size_t c (chunks * maxlen c) <? len then to_size_t c (chunks + 1) else chunks.

(** [ustart] and [ulen] of the loop body of [send_item]. *)
Definition send_ustart (i : Z) : Z := to_size_t c (i * maxlen c).
Definition send_ulen (len chunks i : Z) : Z :=
  if chunks =? 1 then len
  else if i =? to_size_t c (chunks - 1) then to_size_t c (len - to_size_t c (maxlen c * i))
  else maxlen c.

(** [for (i = 0; i < chunks; ++i)], with [fuel] iterations left. *)
Fixpoint send_loop (fuel : nat) (data : list byte) (len chunks i : Z) : proc Z :=
  match fuel with
  | O => Ret 0
  | S fuel' =>
      CallWrite (drop (Z.to_nat (send_ustart i)) data) (send_ulen len chunks i)
                (to_unsigned c i) chunks
        (fun r => if r =? 0 then send_loop fuel' data len chunks (i + 1) else Ret 1)
  end.

(** [send_item(self, data, len)]: the fragment count, then one write per
    fragment, [return 1] if a write does not return 0, [return 0] after the
    loop. *)
Definition send_item (data : list byte) (len : Z) : proc Z :=
  let chunks := send_chunks len in
  send_loop (Z.to_nat chunks) data len chunks 0.

(** The tail of [recv_item], from [if (total_chunk > 1)] on. *)
Definition recv_last (data : ptr) (size_per_chunk total_chunk i : Z) (h : heap)
    : proc recv_result :=
  if 1 <? total_chunk then
    CallRead h PUninit (fun r =>
      let _temp := rr_data r in
      let per_chunk_size := rr_len r in
      let? h1 := memcpy (rr_heap r) data (to_size_t c (i * size_per_chunk))
                        _temp per_chunk_size in
      if negb (rr_rt r =? 0) then
        let? h2 := free h1 data in
        Ret (RecvResult 1 data None h2)
      else
        let new_len :=
          to_size_t c (to_size_t c (to_size_t c (total_chunk - 1) * size_per_chunk)
                       + per_chunk_size) in
        if negb (per_chunk_size =? size_per_chunk) then
          let? (h2, data') := realloc h1 data new_len in
          Ret (RecvResult 0 data' (Some new_len) h2)
        else Ret (RecvResult 0 data (Some new_len) h1))
  else
    Ret (RecvResult 0 data (Some (to_size_t c (total_chunk * size_per_chunk))) h).

(** [for (i = 1; i < total_chunk - 1; ++i)], with [fuel] iterations left. *)
Fixpoint recv_loop (fuel : nat) (data : ptr) (size_per_chunk total_chunk i : Z) (h : heap)
    : proc recv_result :=
  match fuel with
  | O => recv_last data size_per_chunk total_chunk i h
  | S fuel' =>
      CallRead h PUninit (fun r =>
        let _temp := rr_data r in
        let per_chunk_size := rr_len r in
        let? h1 := memcpy (rr_heap r) data (to_size_t c (i * size_per_chunk))
                          _temp per_chunk_size in
        let? h2 := free h1 _temp in
        let? h3 := (if negb (rr_rt r =? 0) then free h2 data else Some h2) in
        recv_loop fuel' data size_per_chunk total_chunk (i + 1) h3)
  end.

(** [recv_item(self, &data, &len)], on the heap [h]: the first read, the
    reassembly buffer, the loop over the middle fragments and the tail.
    [temp] and each [_temp] are uninitialised when the read is called. *)
Definition recv_item (h : heap) : proc recv_result :=
  CallRead h PUninit (fun r =>
    let temp := rr_data r in
    let size_per_chunk := rr_len r in
    let total_chunk := rr_total r in
    if negb (rr_rt r =? 0) then
      let? h1 := free (rr_heap r) temp in
      Ret (RecvResult 1 PUninit None h1)
    else
      let '(h1, data) := malloc (rr_heap r) (to_size_t c (total_chunk * size_per_chunk)) in
      let? h2 := memcpy h1 data 0 temp size_per_chunk in
      let? h3 := free h2 temp in
      recv_loop (Z.to_nat (to_size_t c (total_chunk - 1) - 1))
                data size_per_chunk total_chunk 1 h3).

(** *** The two ends running together *)

(** One attempt of a program at its pending call. *)
Definition proc_step {A : Type} (p : proc A) (ch : chan) : proc A * chan :=
  match p with
  | CallWrite data len id total k =>
      match write_shared_memory c ch data len id total with
      | Blocked => (p, ch)
      | Aborted => (Crash AssertFailed, ch)
      | Undefined => (Crash UndefinedBehaviour, ch)
      | Returned (r, ch') => (k r, ch')
      end
  | CallRead h data_in k =>
      match read_shared_memory c ch h data_in with
      | Blocked => (p, ch)
      | Aborted => (Crash AssertFailed, ch)
      | Undefined => (Crash UndefinedBehaviour, ch)
      | Returned (r, ch') => (k r, ch')
      end
  | _ => (p, ch)
  end.

Inductive side : Type := Producer | Consumer.

Record system : Type := System {
  sys_chan : chan;
  producer : proc Z;
  consumer : proc recv_result
}.

Definition sys_step (who : side) (s : system) : system :=
  match who with
  | Producer =>
      let '(p, ch) := proc_step (producer s) (sys_chan s) in System ch p (consumer s)
  | Consumer =>
      let '(p, ch) := proc_step (consumer s) (sys_chan s) in System ch (producer s) p
  end.

(** The system under a schedule: who attempts a step, in order. *)
Definition run (sched : list side) (s : system) : system :=
  fold_left (fun s who => sys_step who s) sched s.

(** [send_item(data, len)] on one end and [recv_item] on the other, on a
    channel as [create_shared_memory] leaves it. *)
Definition transfer (data : list byte) (len : Z) (fails : list bool) : system :=
  System fresh_chan (send_item data len) (recv_item (empty_heap fails)).

(** The producer and the consumer in turn, [n] times. *)
Fixpoint alternate (n : nat) : list side :=
  match n with
  | O => []
  | S n' => Producer :: Consumer :: alternate n'
  end.
End Transfer.

(** ** The handshake as a state machine *)

(** The two halves of each transaction as separate steps, so that any
    number of invocations may race: [hs_writers] and [hs_readers] count the
    invocations that are between their [sem_wait] and their [sem_post]. *)
Record hstate : Type := HState {
  hs_chan : chan;
  hs_writers : nat;
  hs_readers : nat
}.

Inductive event : Type :=
| EvBeginWrite                                         (* sem_wait(w_sem) returns *)
| EvEndWrite (data : list byte) (len id total : Z)      (* copies, sem_post(r_sem) *)
| EvBeginRead                                          (* sem_wait(r_sem) returns *)
| EvEndRead                                            (* copy, memset, sem_post(w_sem) *)
| EvFailRead.                                          (* return 1 of read_shared_memory *)

Definition hs_step (e : event) (s : hstate) : option hstate :=
  match e with
  | EvBeginWrite =>
      match beginWrite (hs_chan s) with
      | Some ch => Some (HState ch (S (hs_writers s)) (hs_readers s))
      | None => None
      end
  | EvEndWrite data len id total =>
      match hs_writers s with
      | S n => Some (HState (endWrite (hs_chan s) data len id total) n (hs_readers s))
      | O => None
      end
  | EvBeginRead =>
      match beginRead (hs_chan s) with
      | Some ch => Some (HState ch (hs_writers s) (S (hs_readers s)))
      | None => None
      end
  | EvEndRead =>
      match hs_readers s with
      | S n => Some (HState (endRead (hs_chan s)) (hs_writers s) n)
      | O => None
      end
  | EvFailRead =>
      match hs_readers s with
      | S n => Some (HState (hs_chan s) (hs_writers s) n)
      | O => None
      end
  end.

Fixpoint hs_run (t : list event) (s : hstate) : option hstate :=
  match t with
  | [] => Some s
  | e :: t' =>
      match hs_step e s with
      | Some s' => hs_run t' s'
      | None => None
      end
  end.

Definition hs_init : hstate := HState fresh_chan 0 0.

(** The semaphore pair (R, W) of a state. *)
Definition RW (s : hstate) : Z * Z := (r_sem (hs_chan s), w_sem (hs_chan s)).

Inductive op : Type := OpWrite | OpRead.

(** The operations of a trace in the order they began, and in the order
    they ended. *)
Fixpoint begins (t : list event) : list op :=
  match t with
  | [] => []
  | EvBeginWrite :: t' => OpWrite :: begins t'
  | EvBeginRead :: t' => OpRead :: begins t'
  | _ :: t' => begins t'
  end.

Fixpoint ends (t : list event) : list op :=
  match t with
  | [] => []
  | EvEndWrite _ _ _ _ :: t' => OpWrite :: ends t'
  | EvEndRead :: t' => OpRead :: ends t'
  | EvFailRead :: t' => OpRead :: ends t'
  | _ :: t' => ends t'
  end.

Definition flip (o : op) : op := match o with OpWrite => OpRead | OpRead => OpWrite end.

Definition op_eqb (a b : op) : bool :=
  match a, b with
  | OpWrite, OpWrite | OpRead, OpRead => true
  | _, _ => false
  end.

(** [alternates o l]: [l] is [o], [flip o], [o], ... *)
Fixpoint alternates (o : op) (l : list op) : bool :=
  match l with
  | [] => true
  | x :: l' => op_eqb x o && alternates (flip o) l'
  end.

(** No two neighbours of the list are the same operation. *)
Fixpoint no_two_adjacent (l : list op) : bool :=
  match l with
  | x :: ((y :: _) as l') => negb (op_eqb x y) && no_two_adjacent l'
  | _ => true
  end.

(** ** Life cycle: the named resources *)

(** A shared-memory object: its size and what the segment holds. *)
Record shm_object : Type := ShmObject {
  shm_size : Z;
  shm_seg : segment
}.

(** The name spaces of the operating system: the named semaphores with
    their counts and the shared-memory objects. *)
Record os : Type := OS {
  sems : gmap string Z;
  shms : gmap string shm_object
}.

Inductive ftruncate_result : Type := FtOk | FtEINVAL | FtError.

(** What the operating system answers to the five calls of one
    [create_shared_memory] or [open_shared_memory], for reasons outside of
    the program (permissions, limits): [true] makes the call fail. *)
Record faults : Type := Faults {
  w_sem_fails : bool;
  r_sem_fails : bool;
  shm_open_fails : bool;
  ftruncate_answer : ftruncate_result;
  mmap_fails : bool
}.

(** The fields of [shared_memory_t] the life-cycle calls assign; a handle
    is the name of the object it refers to, [None] is [SEM_FAILED], a
    negative descriptor or [MAP_FAILED]. *)
Record shared_memory_t : Type := SharedMemory {
  sm_w_sem : option string;
  sm_r_sem : option string;
  sm_fd : option string;
  sm_data : option string
}.

(** [sem_open(name, O_CREAT | O_RDWR, _MODE, value)]: an existing
    semaphore is opened as it is, [value] is used only to create one. *)
Definition sem_open (o : os) (name : string) (value : Z) (fails : bool)
    : os * option string :=
  if fails then (o, None)
  else
    match sems o !! name with
    | Some _ => (o, Some name)
    | None => (OS (<[name := value]> (sems o)) (shms o), Some name)
    end.

(** [shm_open(name, O_CREAT | O_RDWR, _MODE)]: a new object is empty. *)
Definition shm_open (o : os) (name : string) (fails : bool) : os * option string :=
  if fails then (o, None)
  else
    match shms o !! name with
    | Some _ => (o, Some name)
    | None => (OS (sems o) (<[name := ShmObject 0 zero_segment]> (shms o)), Some name)
    end.

Definition resize_object (obj : shm_object) (size hdr : Z) : shm_object :=
  if shm_size obj =? size then obj
  else ShmObject size
         (Segment (seg_id (shm_seg obj)) (seg_len (shm_seg obj)) (seg_total (shm_seg obj))
                  (take (Z.to_nat (size - hdr)) (seg_payload (shm_seg obj)))).

(** [ftruncate(fd, size)]: sizes the object when the system accepts to. *)
Definition ftruncate (o : os) (fd : string) (size hdr : Z) (answer : ftruncate_result) : os :=
  match answer with
  | FtOk => OS (sems o) (alter (fun obj => resize_object obj size hdr) fd (shms o))
  | _ => o
  end.

Definition sem_unlink (o : os) (name : string) : os := OS (delete name (sems o)) (shms o).
Definition shm_unlink (o : os) (name : string) : os := OS (sems o) (delete name (shms o)).

Section Lifecycle.
Variable c : config.

Definition create_shared_memory (f : faults) (o : os) (name write_sem_name read_sem_name : string)
    : Z * os * shared_memory_t :=
  match sem_open o write_sem_name 1 (w_sem_fails f) with
  | (o1, None) => (1, sem_unlink o1 write_sem_name, SharedMemory None None None None)
  | (o1, Some w) =>
      match sem_open o1 read_sem_name 0 (r_sem_fails f) with
      | (o2, None) =>
          (1, sem_unlink (sem_unlink o2 read_sem_name) write_sem_name,
           SharedMemory (Some w) None None None)
      | (o2, Some r) =>
          match shm_open o2 name (shm_open_fails f) with
          | (o3, None) =>
              (1, shm_unlink (sem_unlink (sem_unlink o3 write_sem_name) read_sem_name) name,
               SharedMemory (Some w) (Some r) None None)
          | (o3, Some fd) =>
              let o4 := ftruncate o3 fd (MAX_BYTES c) (header_size c) (ftruncate_answer f) in
              match ftruncate_answer f with
              | FtError =>
                  (1, sem_unlink (sem_unlink (shm_unlink o4 name) write_sem_name) read_sem_name,
                   SharedMemory (Some w) (Some r) (Some fd) None)
              | _ =>
                  if mmap_fails f then
                    (1, shm_unlink (sem_unlink (sem_unlink o4 write_sem_name) read_sem_name) name,
                     SharedMemory (Some w) (Some r) (Some fd) None)
                  else (0, o4, SharedMemory (Some w) (Some r) (Some fd) (Some fd))
              end
          end
      end
  end.

Definition open_shared_memory (f : faults) (o : os) (name write_sem_name read_sem_name : string)
    : Z * os * shared_memory_t :=
  match sem_open o write_sem_name 1 (w_sem_fails f) with
  | (o1, None) => (1, sem_unlink o1 write_sem_name, SharedMemory None None None None)
  | (o1, Some w) =>
      match sem_open o1 read_sem_name 0 (r_sem_fails f) with
      | (o2, None) =>
          (1, sem_unlink (sem_unlink o2 write_sem_name) read_sem_name,
           SharedMemory (Some w) None None None)
      | (o2, Some r) =>
          match shm_open o2 name (shm_open_fails f) with
          | (o3, None) =>
              (1, shm_unlink (sem_unlink (sem_unlink o3 write_sem_name) read_sem_name) name,
               SharedMemory (Some w) (Some r) None None)
          | (o3, Some fd) =>
              let o4 := ftruncate o3 fd (MAX_BYTES c) (header_size c) (ftruncate_answer f) in
              match ftruncate_answer f with
              | FtError =>
                  (1, sem_unlink (sem_unlink (shm_unlink o4 name) write_sem_name) read_sem_name,
                   SharedMemory (Some w) (Some r) (Some fd) None)
              | _ =>
                  if mmap_fails f then
                    (1, sem_unlink (sem_unlink (shm_unlink o4 name) write_sem_name) read_sem_name,
                     SharedMemory (Some w) (Some r) (Some fd) None)
                  else (0, o4, SharedMemory (Some w) (Some r) (Some fd) (Some fd))
              end
          end
      end
  end.

Definition close_shared_memory (o : os) (name wsem_name rsem_name : string) : os :=
  sem_unlink (sem_unlink (shm_unlink o name) wsem_name) rsem_name.
End Lifecycle.

(** Every call answers without a failure of its own. *)
Definition no_faults : faults := Faults false false false FtOk false.

(** The handshake state (R, W) the name space holds for a pair of names. *)
Definition handshake_of (o : os) (write_sem_name read_sem_name : string) : option Z * option Z :=
  (sems o !! read_sem_name, sems o !! write_sem_name).

Definition empty_os : os := OS ∅ ∅.

(** The five situations the handshake can be in, used to state its
    invariant: ready for a write, a write in progress, ready for a read, a
    read in progress, and stopped after a failed read. *)
Inductive phase : Type := Writable | Writing | Readable | Reading | Dead.

Definition in_phase (p : phase) (s : hstate) : Prop :=
  match p with
  | Writable => RW s = (0, 1) /\ hs_writers s = 0%nat /\ hs_readers s = 0%nat
  | Writing => RW s = (0, 0) /\ hs_writers s = 1%nat /\ hs_readers s = 0%nat
  | Readable => RW s = (1, 0) /\ hs_writers s = 0%nat /\ hs_readers s = 0%nat
  | Reading => RW s = (0, 0) /\ hs_writers s = 0%nat /\ hs_readers s = 1%nat
  | Dead => RW s = (0, 0) /\ hs_writers s = 0%nat /\ hs_readers s = 0%nat
  end.

Definition phase_step (e : event) (p : phase) : option phase :=
  match p, e with
  | Writable, EvBeginWrite => Some Writing
  | Writing, EvEndWrite _ _ _ _ => Some Readable
  | Readable, EvBeginRead => Some Reading
  | Reading, EvEndRead => Some Writable
  | Reading, EvFailRead => Some Dead
  | _, _ => None
  end.

(** The operation that begins next, and the one that ends next. *)
Definition next_begin (p : phase) : op :=
  match p with
  | Writable | Reading | Dead => OpWrite
  | Writing | Readable => OpRead
  end.

Definition next_end (p : phase) : op :=
  match p with
  | Writable | Writing | Dead => OpWrite
  | Readable | Reading => OpRead
  end.

(** ** The states of a transfer *)

(** The states that [send_item(data, len)] and [recv_item] go through when
    they run together, written in closed form: after [j] fragments have
    been written and read ([canon_idle j]), and after fragment [j] has been
    written and not yet read ([canon_full j]). *)
Section Canonical.
Variable c : config.
Variable data : list byte.
Variable len : Z.

(** The [i]-th call of [write_shared_memory] that [send_item] makes. *)
Definition frag_at (i : Z) : fragment :=
  let ulen := send_ulen c len (send_chunks c len) i in
  Fragment (to_unsigned c i) ulen (send_chunks c len)
           (take (Z.to_nat ulen) (drop (Z.to_nat (send_ustart c i)) data)).

Definition log_upto (j : nat) : list fragment :=
  (fun i : nat => frag_at (Z.of_nat i)) <$> seq 0 j.

Definition chan_idle (j : nat) : chan := Chan 0 1 zero_segment (log_upto j).

Definition chan_full (j : nat) : chan :=
  let f := frag_at (Z.of_nat j) in
  Chan 1 0 (Segment (frag_id f) (frag_len f) (frag_total f) (frag_payload f)) (log_upto (S j)).

Definition producer_at (j : nat) : proc Z :=
  send_loop c (Z.to_nat (send_chunks c len) - j) data len (send_chunks c len) (Z.of_nat j).

(** The reassembly buffer once [j] fragments are in: the first
    [j * maxlen] bytes of the message, the rest indeterminate. *)
Definition reassembly (j : nat) : list (option byte) :=
  (Some <$> take (Z.to_nat (Z.of_nat j * maxlen c)) data)
  ++ replicate (Z.to_nat (send_chunks c len * maxlen c - Z.of_nat j * maxlen c)) None.

(** The heap [recv_item] returns: block 1 holds the message; after a
    transfer of several fragments the buffer of the last fragment is still
    allocated. *)
Definition final_blocks : gmap nat (list (option byte)) :=
  if send_chunks c len =? 1 then {[ 1%nat := Some <$> take (Z.to_nat len) data ]}
  else
    <[ 1%nat := Some <$> take (Z.to_nat len) data ]>
      (<[ Z.to_nat (send_chunks c len) :=
            Some <$> frag_payload (frag_at (send_chunks c len - 1)) ]>
         {[ 1%nat := reassembly (Z.to_nat (send_chunks c len) - 1) ]}).

Definition final_result : recv_result :=
  RecvResult 0 (PBlock 1) (Some len)
             (Heap final_blocks (S (Z.to_nat (send_chunks c len))) []).

Definition consumer_at (j : nat) : proc recv_result :=
  match j with
  | O => recv_item c (empty_heap [])
  | S _ =>
      if Z.of_nat j <? send_chunks c len then
        recv_loop c (Z.to_nat (send_chunks c len - 1 - Z.of_nat j)) (PBlock 1)
                  (maxlen c) (send_chunks c len) (Z.of_nat j)
                  (Heap {[ 1%nat := reassembly j ]} (S j) [])
      else Ret final_result
  end.

Definition canon_idle (j : nat) : system :=
  System (chan_idle j) (producer_at j) (consumer_at j).

Definition canon_full (j : nat) : system :=
  System (chan_full j) (producer_at (S j)) (consumer_at j).
End Canonical.

(** ** The fragmentation law *)

(** Modelled from the spec: the per-fragment payload limit of the
    specification, [maxFragmentPayload = C - header_size], and its fragment
    count, [ceil(L / maxFragmentPayload)]. *)
Definition maxFragmentPayload (c : config) : Z := MAX_BYTES c - header_size c.

Definition spec_fragment_count (c : config) (len : Z) : Z :=
  (len + maxFragmentPayload c - 1) / maxFragmentPayload c.

(** The fragment of index [i] of a message of [len] bytes in closed form,
    with the limit the code chunks by, its constant [maxlen]: the count is
    the ceiling of [len / maxlen], every fragment but the last carries
    [maxlen] bytes and the last the remainder; the message id is the
    index, as an [unsigned]. *)
Definition law_count (c : config) (len : Z) : Z := (len + maxlen c - 1) / maxlen c.

Definition law_length (c : config) (len i : Z) : Z :=
  if i <? law_count c len - 1 then maxlen c
  else len - (law_count c len - 1) * maxlen c.

Definition law_fragment (c : config) (data : list byte) (len i : Z) : fragment :=
  Fragment (to_unsigned c i) (law_length c len i) (law_count c len)
           (take (Z.to_nat (law_length c len i)) (drop (Z.to_nat (i * maxlen c)) data)).

(** ** Sample inputs *)

(** A message of 29 bytes: [3 * maxlen + 17] for the build [tiny]. *)
Definition msg29 : list byte :=
  [x01; x02; x03; x04; x05; x06; x07; x08; x09; x0a;
   x0b; x0c; x0d; x0e; x0f; x10; x11; x12; x13; x14;
   x15; x16; x17; x18; x19; x1a; x1b; x1c; x1d].

(** A message of 10 bytes: three fragments of 4, 4 and 2 bytes for the
    build [tiny]. *)
Definition msg10 : list byte := [x01; x02; x03; x04; x05; x06; x07; x08; x09; x0a].

(** A header damaged while the fragment waits in the segment: its length
    word is overwritten. *)
Definition corrupt_len (l : Z) (s : system) : system :=
  let ch := sys_chan s in
  System (Chan (r_sem ch) (w_sem ch)
               (Segment (seg_id (seg ch)) l (seg_total (seg ch)) (seg_payload (seg ch)))
               (written ch))
         (producer s) (consumer s).

(** The first header word overwritten while the fragment waits in the
    segment. *)
Definition set_id (x : Z) (ch : chan) : chan :=
  Chan (r_sem ch) (w_sem ch)
       (Segment x (seg_len (seg ch)) (seg_total (seg ch)) (seg_payload (seg ch)))
       (written ch).

(** A channel with a longer past: [l] in front of its history. *)
Definition with_log (l : list fragment) (ch : chan) : chan :=
  Chan (r_sem ch) (w_sem ch) (seg ch) (l ++ written ch).

(* ===================================================================== *)
(** * Properties *)
(* ===================================================================== *)

(** ** Constants *)

Lemma SIZE_MOD_pos c : 0 < sizeof_size_t c -> 0 < SIZE_MOD c.
Proof. intros H. unfold SIZE_MOD. apply Z.pow_pos_nonneg; lia. Qed.

Lemma PTRDIFF_MAX_lt c : 0 < sizeof_size_t c -> 2 * PTRDIFF_MAX c + 2 = SIZE_MOD c.
Proof.
  intros H. unfold PTRDIFF_MAX, SIZE_MOD.
  replace (8 * sizeof_size_t c) with (Z.succ (8 * sizeof_size_t c - 1)) by lia.
  rewrite Z.pow_succ_r by lia.
  replace (Z.succ (8 * sizeof_size_t c - 1) - 1) with (8 * sizeof_size_t c - 1) by lia.
  lia.
Qed.

Lemma to_size_t_small c z : 0 <= z < SIZE_MOD c -> to_size_t c z = z.
Proof. intros H. unfold to_size_t. apply Z.mod_small. exact H. Qed.

Lemma maxlen_eq c : config_ok c -> maxlen c = MAX_BYTES c - header_size c - sizeof_ptr c.
Proof.
  intros (Hu & Hs & Hp & Hroom & Hmax).
  pose proof (PTRDIFF_MAX_lt c Hs) as Hpd.
  unfold maxlen. rewrite to_size_t_small; unfold header_size in *; lia.
Qed.

Lemma write_bound_eq c : config_ok c -> write_bound c = MAX_BYTES c - header_size c.
Proof.
  intros (Hu & Hs & Hp & Hroom & Hmax).
  pose proof (PTRDIFF_MAX_lt c Hs) as Hpd.
  unfold write_bound. rewrite to_size_t_small; unfold header_size in *; lia.
Qed.

Lemma maxlen_pos c : config_ok c -> 0 < maxlen c.
Proof. intros H. rewrite (maxlen_eq c H). destruct H as (? & ? & ? & ? & ?). lia. Qed.

Lemma maxlen_le_write_bound c : config_ok c -> maxlen c < write_bound c.
Proof.
  intros H. rewrite (maxlen_eq c H), (write_bound_eq c H).
  destruct H as (? & ? & ? & ? & ?). lia.
Qed.

(** The mapping holds the [MAX_BYTES] bytes of the object. *)
Lemma mapping_covers c : MAX_BYTES c <= mapping_size c.
Proof.
  unfold mapping_size, page_size.
  pose proof (Z.div_mod (MAX_BYTES c + 4096 - 1) 4096 ltac:(lia)).
  pose proof (Z.mod_pos_bound (MAX_BYTES c + 4096 - 1) 4096 ltac:(lia)).
  lia.
Qed.

(** On the shipped builds [MAX_BYTES] is not a multiple of the page size,
    and a copy of any length that passes the check of
    [read_shared_memory] stays inside the mapping. *)
Lemma shipped_mapping_holds_accepted_lengths len :
  len <= 4000000 ->
  header_size LP64 + len <= mapping_size LP64 /\
  header_size ILP32 + len <= mapping_size ILP32.
Proof.
  intros H.
  change (mapping_size LP64) with 4001792. change (mapping_size ILP32) with 4001792.
  unfold header_size. simpl. lia.
Qed.

Lemma maxlen_bounds c : config_ok c -> 0 < maxlen c <= PTRDIFF_MAX c.
Proof.
  intros H. split; [now apply maxlen_pos|].
  rewrite (maxlen_eq c H). destruct H as (? & ? & ? & ? & ?). unfold header_size. lia.
Qed.

Lemma LP64_ok : config_ok LP64.
Proof. unfold config_ok, header_size, PTRDIFF_MAX; simpl. lia. Qed.

Lemma ILP32_ok : config_ok ILP32.
Proof. unfold config_ok, header_size, PTRDIFF_MAX; simpl. lia. Qed.

Lemma tiny_ok : config_ok tiny.
Proof. unfold config_ok, header_size, PTRDIFF_MAX; simpl. lia. Qed.

(** The assertion of [write_shared_memory] is the only way for it to
    abort. *)
Lemma write_not_aborted c ch data len id total :
  write_shared_memory c ch data len id total <> Aborted <->
  0 < len <= write_bound c.
Proof.
  unfold write_shared_memory.
  destruct (0 <? len) eqn:E1; destruct (len <=? write_bound c) eqn:E2; simpl;
    try (split; [intros H; exfalso; apply H; reflexivity | intros; lia]).
  split; [intros _; lia|]. intros _.
  destruct (beginWrite ch); [|intros E; discriminate E].
  destruct (Z.of_nat (length data) <? len); intros E; discriminate E.
Qed.

(** C6, as stated, fails on the shipped header: on LP64 [maxlen] is
    3999972 while capacity minus header size is 3999980. *)
Lemma C6_maxlen_is_not_capacity_minus_header :
  ~ (maxlen LP64 = MAX_BYTES LP64 - header_size LP64 /\
     forall ch data len id total,
       write_shared_memory LP64 ch data len id total <> Aborted ->
       0 < len <= MAX_BYTES LP64 - header_size LP64).
Proof. intros [H _]. vm_compute in H. discriminate H. Qed.

(** C6 (amended): [maxlen], the per-fragment limit used for chunking,
    equals the capacity minus the header size (message id, fragment length,
    fragment count) minus the size of one pointer, so it is strictly below
    the bound of a write; a write accepts exactly the fragment lengths with
    [0 < len <= capacity - header_size]. *)
Theorem C6_maxlen_and_write_bound c :
  config_ok c ->
  header_size c = sizeof_unsigned c + 2 * sizeof_size_t c /\
  maxlen c = MAX_BYTES c - header_size c - sizeof_ptr c /\
  maxlen c < MAX_BYTES c - header_size c /\
  forall ch data len id total,
    write_shared_memory c ch data len id total <> Aborted <->
    0 < len <= MAX_BYTES c - header_size c.
Proof.
  intros H. split; [unfold header_size; lia|].
  split; [now apply maxlen_eq|].
  split.
  - rewrite <- (write_bound_eq c H). now apply maxlen_le_write_bound.
  - intros. rewrite <- (write_bound_eq c H). apply write_not_aborted.
Qed.

Lemma C6_maxlen_and_write_bound_witness :
  config_ok LP64 /\ maxlen LP64 = 3999972 /\
  (write_shared_memory LP64 fresh_chan [x01] 1 0 1 <> Aborted <-> 0 < 1 <= 3999980).
Proof.
  split; [exact LP64_ok|].
  destruct (C6_maxlen_and_write_bound LP64 LP64_ok) as (_ & Hm & _ & Hw).
  split; [exact Hm | exact (Hw fresh_chan [x01] 1 0 1)].
Defined.

(** ** The handshake *)

Lemma sem_wait_Some v v' : sem_wait v = Some v' <-> 0 < v /\ v' = v - 1.
Proof.
  unfold sem_wait. destruct (0 <? v) eqn:E.
  - apply Z.ltb_lt in E. split; [intros [= <-]; lia | intros [_ ->]; reflexivity].
  - apply Z.ltb_ge in E. split; [intros [=] | lia].
Qed.

Lemma sem_wait_None v : sem_wait v = None <-> v <= 0.
Proof.
  unfold sem_wait. destruct (0 <? v) eqn:E.
  - apply Z.ltb_lt in E. split; [intros [=] | lia].
  - apply Z.ltb_ge in E. split; [lia | reflexivity].
Qed.

(** One step of the machine moves the phase along its cycle. *)
Lemma hs_step_phase p e s s' :
  in_phase p s -> hs_step e s = Some s' ->
  exists p', phase_step e p = Some p' /\ in_phase p' s'.
Proof.
  destruct s as [[r w sg wr] nw nr]. unfold in_phase, RW. simpl.
  intros Hp Hs.
  destruct e; simpl in Hs; unfold beginWrite, beginRead, endWrite, endRead, sem_post in Hs;
    simpl in Hs.
  - destruct (sem_wait w) as [w'|] eqn:Ew; [|discriminate Hs].
    apply sem_wait_Some in Ew. destruct Ew as [Hw ->]. injection Hs as <-.
    destruct p; destruct Hp as ([= -> ->] & -> & ->); try lia.
    exists Writing. simpl. auto.
  - destruct nw as [|n]; [discriminate Hs|]. injection Hs as <-.
    destruct p; destruct Hp as ([= -> ->] & Hnw & ->); try discriminate Hnw.
    injection Hnw as ->. exists Readable. simpl. auto.
  - destruct (sem_wait r) as [r'|] eqn:Er; [|discriminate Hs].
    apply sem_wait_Some in Er. destruct Er as [Hr ->]. injection Hs as <-.
    destruct p; destruct Hp as ([= -> ->] & -> & ->); try lia.
    exists Reading. simpl. auto.
  - destruct nr as [|n]; [discriminate Hs|]. injection Hs as <-.
    destruct p; destruct Hp as ([= -> ->] & -> & Hnr); try discriminate Hnr.
    injection Hnr as ->. exists Writable. simpl. auto.
  - destruct nr as [|n]; [discriminate Hs|]. injection Hs as <-.
    destruct p; destruct Hp as ([= -> ->] & -> & Hnr); try discriminate Hnr.
    injection Hnr as ->. exists Dead. simpl. auto.
Qed.

(** Along every run the phase is well defined and the operations begin,
    and end, in alternation. *)
Lemma hs_run_phase t : forall p s s',
  in_phase p s -> hs_run t s = Some s' ->
  (exists p', in_phase p' s') /\
  alternates (next_begin p) (begins t) = true /\
  alternates (next_end p) (ends t) = true.
Proof.
  induction t as [|e t IH]; intros p s s' Hp Hr; simpl in Hr.
  - injection Hr as <-. eauto.
  - destruct (hs_step e s) as [s1|] eqn:Es; [|discriminate Hr].
    destruct (hs_step_phase p e s s1 Hp Es) as (p1 & Hps & Hp1).
    destruct (IH p1 s1 s' Hp1 Hr) as (Hex & Hb & He).
    split; [exact Hex|].
    destruct p, e; simpl in Hps; try discriminate Hps; injection Hps as <-;
      simpl in *; auto.
Qed.

Lemma alternates_no_two_adjacent l : forall o,
  alternates o l = true -> no_two_adjacent l = true.
Proof.
  induction l as [|x l IH]; intros o H; [reflexivity|].
  simpl in H. apply andb_prop in H. destruct H as [Hx Hl].
  destruct l as [|y l']; [reflexivity|].
  change (negb (op_eqb x y) && no_two_adjacent (y :: l') = true).
  rewrite (IH _ Hl), andb_true_r.
  simpl in Hl. apply andb_prop in Hl. destruct Hl as [Hy _].
  destruct x, y, o; simpl in *; congruence.
Qed.

(** The two transactions are runs of the machine. *)
Lemma write_shared_memory_run c ch data len id total r ch' nw nr :
  write_shared_memory c ch data len id total = Returned (r, ch') ->
  r = 0 /\
  hs_run [EvBeginWrite; EvEndWrite data len id total] (HState ch nw nr)
  = Some (HState ch' nw nr).
Proof.
  unfold write_shared_memory. cbn [hs_run hs_step hs_chan hs_readers hs_writers].
  destruct (negb _); [intros [=]|].
  destruct (beginWrite ch) as [ch1|]; [|intros [=]].
  destruct (Z.of_nat (length data) <? len); [intros [=]|]. intros [= <- <-]. auto.
Qed.

Lemma read_shared_memory_run c ch h p r ch' nw nr :
  read_shared_memory c ch h p = Returned (r, ch') ->
  hs_run [EvBeginRead; if rr_rt r =? 0 then EvEndRead else EvFailRead] (HState ch nw nr)
  = Some (HState ch' nw nr).
Proof.
  unfold read_shared_memory. cbn [hs_run hs_step hs_chan hs_readers hs_writers].
  destruct (beginRead ch) as [ch1|]; [|intros [=]].
  destruct (orb (seg_len (seg ch1) <=? 0) (MAX_BYTES c <? seg_len (seg ch1)));
    [intros [= <- <-]; reflexivity|].
  destruct (malloc h (seg_len (seg ch1))) as [h1 [| |b]]; try (intros [= <- <-]; reflexivity).
  destruct (mapping_size c <? header_size c + seg_len (seg ch1)); [intros [=]|].
  match goal with |- context [store ?a ?b ?c ?d] => destruct (store a b c d) end;
    [|intros [=]].
  intros [= <- <-]. reflexivity.
Qed.

(** C3: from (R,W) = (0,1), under any interleaving of the steps that
    [write_shared_memory] and [read_shared_memory] perform, (R,W) is one of
    (0,1), (0,0), (1,0) and never (1,1); writes and reads alternate,
    a write first, with no two writes and no two reads adjacent, both in
    the order they begin and in the order they end. *)
Theorem C3_handshake_invariant t s :
  hs_run t hs_init = Some s ->
  (RW s = (0, 1) \/ RW s = (0, 0) \/ RW s = (1, 0)) /\
  RW s <> (1, 1) /\
  alternates OpWrite (begins t) = true /\
  alternates OpWrite (ends t) = true /\
  no_two_adjacent (begins t) = true /\
  no_two_adjacent (ends t) = true.
Proof.
  intros Hr.
  assert (Hi : in_phase Writable hs_init) by (simpl; auto).
  destruct (hs_run_phase t Writable hs_init s Hi Hr) as ((p & Hp) & Hb & He).
  simpl in Hb, He.
  assert (HRW : RW s = (0, 1) \/ RW s = (0, 0) \/ RW s = (1, 0))
    by (destruct p; destruct Hp as (-> & _); auto).
  split; [exact HRW|].
  split; [destruct HRW as [-> | [-> | ->]]; intros [=]|].
  split; [exact Hb|]. split; [exact He|].
  split; eapply alternates_no_two_adjacent; eassumption.
Qed.

Lemma C3_handshake_invariant_witness :
  let t := [EvBeginWrite; EvEndWrite [x01] 1 0 1; EvBeginRead; EvEndRead; EvBeginWrite] in
  let s := HState (Chan 0 0 zero_segment [Fragment 0 1 1 [x01]]) 1 0 in
  hs_run t hs_init = Some s /\ RW s <> (1, 1) /\ no_two_adjacent (begins t) = true.
Proof.
  intros t s.
  assert (H : hs_run t hs_init = Some s) by reflexivity.
  split; [exact H|].
  destruct (C3_handshake_invariant t s H) as (_ & Hne & _ & _ & Hb & _).
  split; [exact Hne | exact Hb].
Defined.

(** ** Chunking arithmetic *)

Section Chunking.
Variable c : config.
Hypothesis Hc : config_ok c.
Variable len : Z.
Hypothesis Hlen : 0 < len <= PTRDIFF_MAX c.

Lemma send_chunks_bounds :
  1 <= send_chunks c len /\
  (send_chunks c len - 1) * maxlen c < len <= send_chunks c len * maxlen c /\
  send_chunks c len * maxlen c < SIZE_MOD c.
Proof.
  pose proof (maxlen_bounds c Hc) as [HM0 HM1].
  destruct Hc as (_ & Hs & _).
  pose proof (PTRDIFF_MAX_lt c Hs) as Hpd.
  unfold send_chunks.
  destruct (maxlen c <? len) eqn:E.
  - apply Z.ltb_lt in E.
    pose proof (Z.div_mod len (maxlen c) ltac:(lia)) as Hdm.
    pose proof (Z.mod_pos_bound len (maxlen c) HM0) as Hmb.
    assert (Hq : 1 <= len / maxlen c) by (apply Z.div_le_lower_bound; lia).
    rewrite to_size_t_small by nia.
    destruct (len / maxlen c * maxlen c <? len) eqn:E2.
    + apply Z.ltb_lt in E2. rewrite to_size_t_small by nia. nia.
    + apply Z.ltb_ge in E2. nia.
  - apply Z.ltb_ge in E. rewrite to_size_t_small by lia.
    destruct (1 * maxlen c <? len) eqn:E2.
    + apply Z.ltb_lt in E2. lia.
    + lia.
Qed.

(** The fragment count is the ceiling of [len / maxlen]. *)
Lemma send_chunks_ceil : send_chunks c len = (len + maxlen c - 1) / maxlen c.
Proof.
  pose proof (maxlen_bounds c Hc) as [HM0 HM1].
  destruct send_chunks_bounds as (H1 & [H2 H3] & _).
  apply Z.div_unique with (r := len + maxlen c - 1 - maxlen c * send_chunks c len).
  - left. nia.
  - lia.
Qed.

Lemma send_ustart_eq i : 0 <= i < send_chunks c len -> send_ustart c i = i * maxlen c.
Proof.
  intros Hi. pose proof (maxlen_bounds c Hc) as [HM0 HM1].
  destruct send_chunks_bounds as (H1 & [H2 H3] & H4).
  unfold send_ustart. apply to_size_t_small. nia.
Qed.

(** Every fragment but the last carries [maxlen] bytes, the last the
    remainder. *)
Lemma send_ulen_eq i :
  0 <= i < send_chunks c len ->
  send_ulen c len (send_chunks c len) i =
    if i <? send_chunks c len - 1 then maxlen c
    else len - (send_chunks c len - 1) * maxlen c.
Proof.
  intros Hi. pose proof (maxlen_bounds c Hc) as [HM0 HM1].
  destruct send_chunks_bounds as (H1 & [H2 H3] & H4).
  unfold send_ulen.
  destruct (send_chunks c len =? 1) eqn:E1.
  - apply Z.eqb_eq in E1. rewrite E1 in *.
    destruct (i <? 1 - 1) eqn:E; [apply Z.ltb_lt in E; lia|]. lia.
  - apply Z.eqb_neq in E1.
    rewrite (to_size_t_small c (send_chunks c len - 1)) by nia.
    destruct (i =? send_chunks c len - 1) eqn:E2.
    + apply Z.eqb_eq in E2. subst i.
      rewrite Z.ltb_irrefl.
      rewrite (to_size_t_small c (maxlen c * _)) by nia.
      rewrite to_size_t_small by nia. lia.
    + apply Z.eqb_neq in E2.
      destruct (i <? send_chunks c len - 1) eqn:E3; [reflexivity|].
      apply Z.ltb_ge in E3. lia.
Qed.

Lemma send_ulen_bounds i :
  0 <= i < send_chunks c len ->
  0 < send_ulen c len (send_chunks c len) i <= maxlen c /\
  i * maxlen c + send_ulen c len (send_chunks c len) i <= len /\
  (i < send_chunks c len - 1 -> send_ulen c len (send_chunks c len) i = maxlen c) /\
  (i = send_chunks c len - 1 -> i * maxlen c + send_ulen c len (send_chunks c len) i = len).
Proof.
  intros Hi. pose proof (maxlen_bounds c Hc) as [HM0 HM1].
  destruct send_chunks_bounds as (H1 & [H2 H3] & H4).
  rewrite (send_ulen_eq i Hi).
  destruct (i <? send_chunks c len - 1) eqn:E.
  - apply Z.ltb_lt in E. nia.
  - apply Z.ltb_ge in E. assert (i = send_chunks c len - 1) by lia. subst i. nia.
Qed.
End Chunking.

(** ** Heap and transaction lemmas *)

Lemma malloc_ok h n :
  alloc_fails h = [] ->
  malloc h n = (Heap (<[next_block h := replicate (Z.to_nat n) None]> (blocks h))
                     (S (next_block h)) [], PBlock (next_block h)).
Proof. unfold malloc. intros ->. reflexivity. Qed.

Lemma store_blocks h d off src bd :
  blocks h !! d = Some bd ->
  0 <= off -> off + Z.of_nat (length src) <= Z.of_nat (length bd) ->
  store h (PBlock d) off src =
  Some (Heap (<[d := take (Z.to_nat off) bd ++ src ++ drop (Z.to_nat off + length src) bd]>
                (blocks h)) (next_block h) (alloc_fails h)).
Proof.
  intros Hd H0 H1. unfold store. rewrite Hd.
  replace (0 <=? off) with true by (symmetry; apply Z.leb_le; lia).
  replace (off + Z.of_nat (length src) <=? Z.of_nat (length bd)) with true
    by (symmetry; apply Z.leb_le; lia).
  reflexivity.
Qed.

Lemma memcpy_blocks h d s off n bd bs :
  blocks h !! s = Some bs -> blocks h !! d = Some bd ->
  n = Z.of_nat (length bs) -> 0 <= off -> off + n <= Z.of_nat (length bd) ->
  memcpy h (PBlock d) off (PBlock s) n =
  Some (Heap (<[d := take (Z.to_nat off) bd ++ bs ++ drop (Z.to_nat off + length bs) bd]>
                (blocks h)) (next_block h) (alloc_fails h)).
Proof.
  intros Hs Hd -> H0 H1. unfold memcpy, load. rewrite Hs.
  rewrite Z.leb_refl, Nat2Z.id, firstn_all.
  apply store_blocks; assumption.
Qed.

(** A write on a channel that is ready for it. *)
Lemma write_ready c ch data len id total :
  0 < len <= write_bound c -> len <= Z.of_nat (length data) -> 0 < w_sem ch ->
  write_shared_memory c ch data len id total =
  Returned (0, endWrite (Chan (r_sem ch) (w_sem ch - 1) (seg ch) (written ch))
                        data len id total).
Proof.
  intros [H0 H1] Hd Hw. unfold write_shared_memory, beginWrite, sem_wait.
  replace (0 <? len) with true by (symmetry; apply Z.ltb_lt; lia).
  replace (len <=? write_bound c) with true by (symmetry; apply Z.leb_le; lia).
  replace (0 <? w_sem ch) with true by (symmetry; apply Z.ltb_lt; lia).
  replace (Z.of_nat (length data) <? len) with false by (symmetry; apply Z.ltb_ge; lia).
  reflexivity.
Qed.

(** A write whose arguments pass the assertion blocks while W is 0. *)
Lemma write_blocked c ch data len id total :
  0 < len <= write_bound c -> w_sem ch <= 0 ->
  write_shared_memory c ch data len id total = Blocked.
Proof.
  intros [H0 H1] Hw. unfold write_shared_memory, beginWrite, sem_wait.
  replace (0 <? len) with true by (symmetry; apply Z.ltb_lt; lia).
  replace (len <=? write_bound c) with true by (symmetry; apply Z.leb_le; lia).
  replace (0 <? w_sem ch) with false by (symmetry; apply Z.ltb_ge; lia).
  reflexivity.
Qed.

(** A read blocks while R is 0. *)
Lemma read_blocked c ch h p : r_sem ch <= 0 -> read_shared_memory c ch h p = Blocked.
Proof.
  intros Hr. unfold read_shared_memory, beginRead, sem_wait.
  replace (0 <? r_sem ch) with false by (symmetry; apply Z.ltb_ge; lia).
  reflexivity.
Qed.

(** A read of a well-formed fragment, with an allocation that succeeds. *)
Lemma read_ready c h p id len total payload w log :
  0 < len <= payload_capacity c -> 0 <= header_size c ->
  Z.of_nat (length payload) = len -> alloc_fails h = [] ->
  read_shared_memory c (Chan 1 w (Segment id len total payload) log) h p =
  Returned (ReadResult 0 (PBlock (next_block h)) len total id
              (Heap (<[next_block h := Some <$> payload]> (blocks h)) (S (next_block h)) []),
            Chan 0 (w + 1) zero_segment log).
Proof.
  intros [H0 H1] Hh Hp Hf. unfold payload_capacity in H1.
  unfold read_shared_memory, beginRead, sem_wait.
  cbn [r_sem w_sem seg written seg_id seg_len seg_total seg_payload].
  change (0 <? 1) with true. cbv iota beta zeta.
  cbn [r_sem w_sem seg written seg_id seg_len seg_total seg_payload].
  replace (len <=? 0) with false by (symmetry; apply Z.leb_gt; lia).
  replace (MAX_BYTES c <? len) with false by (symmetry; apply Z.ltb_ge; lia).
  cbv [orb]. rewrite (malloc_ok h len Hf).
  replace (mapping_size c <? header_size c + len) with false
    by (symmetry; apply Z.ltb_ge; pose proof (mapping_covers c);
        unfold payload_capacity in *; lia).
  erewrite store_blocks; cycle 1.
  - cbn [blocks]. apply lookup_insert_eq.
  - lia.
  - rewrite length_fmap, length_resize, length_replicate. lia.
  - cbn [blocks next_block alloc_fails]. unfold endRead, sem_post.
    cbn [r_sem w_sem seg written].
    rewrite insert_insert_eq.
    replace (Z.to_nat len) with (length payload) by lia.
    rewrite resize_all, length_fmap.
    change (Z.to_nat 0) with 0%nat. rewrite take_0.
    rewrite drop_ge by (rewrite length_replicate; lia).
    rewrite app_nil_r. reflexivity.
Qed.

(** ** A transfer, step by step *)

Section Run.
Variable c : config.
Hypothesis Hc : config_ok c.
Variable data : list byte.
Variable len : Z.
Hypothesis Hlen : 0 < len <= PTRDIFF_MAX c.
Hypothesis Hdata : len <= Z.of_nat (length data).

Local Abbreviation N := (send_chunks c len).
Local Abbreviation M := (maxlen c).

Lemma log_upto_S j :
  log_upto c data len (S j) = log_upto c data len j ++ [frag_at c data len (Z.of_nat j)].
Proof. unfold log_upto. rewrite seq_S, fmap_app. reflexivity. Qed.

Lemma frag_payload_length i :
  0 <= i < N ->
  Z.of_nat (length (frag_payload (frag_at c data len i))) = send_ulen c len N i.
Proof.
  intros Hi. destruct (send_ulen_bounds c Hc len Hlen i Hi) as ([H0 H1] & H2 & _).
  unfold frag_at. cbn [frag_payload].
  rewrite length_take, length_drop, (send_ustart_eq c Hc len Hlen i Hi). nia.
Qed.

(** The producer writes fragment [j] when the channel is idle. *)
Lemma producer_step j :
  (j < Z.to_nat N)%nat ->
  proc_step c (producer_at c data len j) (chan_idle c data len j)
  = (producer_at c data len (S j), chan_full c data len j).
Proof.
  intros Hj.
  assert (Hi : 0 <= Z.of_nat j < N) by lia.
  destruct (send_ulen_bounds c Hc len Hlen _ Hi) as ([H0 H1] & H2 & _).
  pose proof (maxlen_le_write_bound c Hc) as HMw.
  unfold producer_at.
  replace (Z.to_nat N - j)%nat with (S (Z.to_nat N - S j)) by lia.
  cbn [send_loop]. unfold proc_step.
  rewrite write_ready; cycle 1.
  - lia.
  - rewrite length_drop, (send_ustart_eq c Hc len Hlen _ Hi). nia.
  - cbn [chan_idle w_sem]. lia.
  - cbv iota beta. change (0 =? 0) with true. cbv iota.
    f_equal.
    + f_equal. lia.
    + unfold endWrite, chan_idle, chan_full, frag_at, sem_post.
      cbn [r_sem w_sem seg written seg_payload zero_segment frag_id frag_len frag_total
           frag_payload].
      rewrite drop_nil, app_nil_r, log_upto_S. reflexivity.
Qed.

(** With a fragment in the segment the producer cannot move. *)
Lemma producer_waits j :
  proc_step c (producer_at c data len (S j)) (chan_full c data len j)
  = (producer_at c data len (S j), chan_full c data len j).
Proof.
  unfold producer_at.
  destruct (Z.to_nat N - S j)%nat as [|n] eqn:E; [reflexivity|].
  assert (Hi : 0 <= Z.of_nat (S j) < N) by lia.
  destruct (send_ulen_bounds c Hc len Hlen _ Hi) as ([H0 H1] & _).
  pose proof (maxlen_le_write_bound c Hc) as HMw.
  cbn [send_loop]. unfold proc_step.
  rewrite write_blocked; [reflexivity | lia | cbn [chan_full w_sem]; lia].
Qed.

Lemma chan_full_eq j :
  chan_full c data len j
  = Chan 1 0 (Segment (to_unsigned c (Z.of_nat j)) (send_ulen c len N (Z.of_nat j)) N
                      (frag_payload (frag_at c data len (Z.of_nat j))))
         (log_upto c data len (S j)).
Proof. reflexivity. Qed.

(** Copying fragment [j] to its place in the reassembly buffer. *)
Lemma reassembly_store j :
  0 <= Z.of_nat j < N ->
  take (Z.to_nat (Z.of_nat j * M)) (reassembly c data len j)
  ++ (Some <$> frag_payload (frag_at c data len (Z.of_nat j)))
  ++ drop (Z.to_nat (Z.of_nat j * M)
           + length (Some <$> frag_payload (frag_at c data len (Z.of_nat j))))
          (reassembly c data len j)
  = (Some <$> take (Z.to_nat (Z.of_nat j * M + send_ulen c len N (Z.of_nat j))) data)
    ++ replicate (Z.to_nat (N * M - Z.of_nat j * M - send_ulen c len N (Z.of_nat j))) None.
Proof.
  intros Hi.
  pose proof (frag_payload_length _ Hi) as Hpl.
  destruct (send_ulen_bounds c Hc len Hlen _ Hi) as ([H0 H1] & H2 & _).
  destruct (send_chunks_bounds c Hc len Hlen) as (HN1 & [HN2 HN3] & HN4).
  pose proof (maxlen_bounds c Hc) as [HM0 HM1].
  set (sz := send_ulen c len N (Z.of_nat j)) in *.
  assert (Ha : length (Some <$> take (Z.to_nat (Z.of_nat j * M)) data)
               = Z.to_nat (Z.of_nat j * M)).
  { rewrite length_fmap, length_take. nia. }
  unfold reassembly.
  rewrite take_app_length' by (symmetry; exact Ha).
  rewrite length_fmap.
  rewrite drop_app_ge by (rewrite Ha; lia).
  rewrite Ha, drop_replicate.
  rewrite app_assoc. f_equal.
  - unfold frag_at. cbn [frag_payload]. fold sz.
    rewrite (send_ustart_eq c Hc len Hlen _ Hi).
    rewrite <- fmap_app, take_take_drop. f_equal. f_equal. lia.
  - f_equal. nia.
Qed.

Lemma reassembly_length j :
  0 <= Z.of_nat j < N ->
  Z.of_nat (length (reassembly c data len j)) = N * M.
Proof.
  intros Hi.
  destruct (send_chunks_bounds c Hc len Hlen) as (HN1 & [HN2 HN3] & HN4).
  pose proof (maxlen_bounds c Hc) as [HM0 HM1].
  unfold reassembly. rewrite length_app, length_fmap, length_take, length_replicate. nia.
Qed.

Lemma reassembly_S j :
  Z.of_nat (S j) < N ->
  (Some <$> take (Z.to_nat (Z.of_nat j * M + send_ulen c len N (Z.of_nat j))) data)
  ++ replicate (Z.to_nat (N * M - Z.of_nat j * M - send_ulen c len N (Z.of_nat j))) None
  = reassembly c data len (S j).
Proof.
  intros Hi.
  assert (Hi' : 0 <= Z.of_nat j < N) by lia.
  destruct (send_ulen_bounds c Hc len Hlen _ Hi') as (_ & _ & H3 & _).
  rewrite H3 by lia. unfold reassembly. f_equal; f_equal; f_equal; lia.
Qed.

(** Copying a fragment buffer into the reassembly buffer, and freeing it. *)
Lemma memcpy_into nxt buf (src : list (option byte)) off n fails :
  (1 < nxt)%nat -> n = Z.of_nat (length src) ->
  0 <= off -> off + n <= Z.of_nat (length buf) ->
  memcpy (Heap (<[nxt := src]> {[ 1%nat := buf ]}) (S nxt) fails) (PBlock 1) off (PBlock nxt) n
  = Some (Heap (<[ 1%nat := take (Z.to_nat off) buf ++ src
                            ++ drop (Z.to_nat off + length src) buf ]>
                  (<[nxt := src]> {[ 1%nat := buf ]})) (S nxt) fails).
Proof.
  intros Hn -> H0 H1.
  erewrite memcpy_blocks; [reflexivity | | | reflexivity | lia..].
  - cbn [blocks]. apply lookup_insert_eq.
  - cbn [blocks]. rewrite lookup_insert_ne by lia. apply lookup_singleton_eq.
Qed.

Lemma free_temp nxt (buf new src : list (option byte)) fails :
  (1 < nxt)%nat ->
  free (Heap (<[ 1%nat := new ]> (<[nxt := src]> {[ 1%nat := buf ]})) (S nxt) fails)
       (PBlock nxt)
  = Some (Heap {[ 1%nat := new ]} (S nxt) fails).
Proof.
  intros Hn. unfold free. cbn [blocks next_block alloc_fails].
  rewrite lookup_insert_ne by lia. rewrite lookup_insert_eq.
  rewrite delete_insert_ne by lia. rewrite delete_insert_eq.
  rewrite delete_singleton_ne by lia. rewrite insert_singleton_eq. reflexivity.
Qed.

Lemma payload_capacity_bound i :
  0 <= i < N ->
  0 < send_ulen c len N i <= payload_capacity c /\ 0 <= header_size c.
Proof.
  intros Hi. destruct (send_ulen_bounds c Hc len Hlen _ Hi) as ([H0 H1] & _).
  pose proof (maxlen_le_write_bound c Hc) as HMw.
  rewrite (write_bound_eq c Hc) in HMw. unfold payload_capacity.
  destruct Hc as (? & ? & ? & ? & ?). unfold header_size in *. lia.
Qed.

(** An iteration of the loop of [recv_item]: fragment [j] goes to its
    place. *)
Lemma consumer_loop j :
  (0 < j)%nat -> Z.of_nat (S j) < N ->
  proc_step c (consumer_at c data len j) (chan_full c data len j)
  = (consumer_at c data len (S j), chan_idle c data len (S j)).
Proof.
  intros Hj0 HjN.
  assert (Hi : 0 <= Z.of_nat j < N) by lia.
  assert (Hfuel : Z.to_nat (N - 1 - Z.of_nat j) = S (Z.to_nat (N - 1 - Z.of_nat (S j))))
    by lia.
  destruct (payload_capacity_bound _ Hi) as [Hsz Hh].
  destruct (send_ulen_bounds c Hc len Hlen _ Hi) as ([H0 H1] & H2 & H3 & _).
  destruct (send_chunks_bounds c Hc len Hlen) as (HN1 & [HN2 HN3] & HN4).
  pose proof (maxlen_bounds c Hc) as [HM0 HM1].
  pose proof (frag_payload_length _ Hi) as Hpl.
  pose proof (reassembly_length _ Hi) as Hrl.
  unfold consumer_at at 1. destruct j as [|j']; [lia|]. set (j := S j') in *.
  clearbody j.
  replace (Z.of_nat j <? N) with true by (symmetry; apply Z.ltb_lt; lia).
  rewrite Hfuel. cbn [recv_loop]. unfold proc_step. rewrite chan_full_eq.
  rewrite read_ready; [| exact Hsz | exact Hh | exact Hpl | reflexivity].
  cbv iota beta zeta. cbn [rr_rt rr_data rr_len rr_total rr_id rr_heap blocks next_block].
  assert (Hoff : 0 <= Z.of_nat j * M) by (apply Z.mul_nonneg_nonneg; lia).
  rewrite (to_size_t_small c (Z.of_nat j * M)) by lia.
  rewrite memcpy_into; [| lia | rewrite length_fmap; lia | lia | lia].
  rewrite free_temp by lia.
  change (negb (0 =? 0)) with false. cbv iota.
  rewrite reassembly_store by lia.
  rewrite reassembly_S by lia.
  f_equal.
  unfold consumer_at.
  replace (Z.of_nat (S j) <? N) with true by (symmetry; apply Z.ltb_lt; lia).
  f_equal. lia.
Qed.

Lemma reassembly_0 : reassembly c data len 0 = replicate (Z.to_nat (N * M)) None.
Proof.
  unfold reassembly. change (Z.of_nat 0 * M) with 0. rewrite Z.sub_0_r. reflexivity.
Qed.

(** The heap after the first fragment has been copied to a fresh
    reassembly buffer and its own buffer freed. *)
Lemma first_copy (src : list (option byte)) n size :
  n = Z.of_nat (length src) -> n <= size ->
  match memcpy (Heap (<[ 1%nat := replicate (Z.to_nat size) None ]> (<[ 0%nat := src ]> ∅))
                     2 []) (PBlock 1) 0 (PBlock 0) n with
  | Some h2 => free h2 (PBlock 0)
  | None => None
  end
  = Some (Heap {[ 1%nat := take (Z.to_nat 0) (replicate (Z.to_nat size) None) ++ src
                           ++ drop (Z.to_nat 0 + length src)
                                   (replicate (Z.to_nat size) None) ]} 2 []).
Proof.
  intros Hn Hs.
  rewrite (memcpy_blocks _ 1 0 0 n (replicate (Z.to_nat size) None) src);
    [ | | | exact Hn | lia | rewrite length_replicate; lia].
  2: { cbn [blocks]. rewrite lookup_insert_ne by lia. apply lookup_insert_eq. }
  2: { cbn [blocks]. apply lookup_insert_eq. }
  unfold free. cbn [blocks next_block alloc_fails].
  rewrite insert_insert_eq. rewrite lookup_insert_ne by lia. rewrite lookup_insert_eq.
  rewrite delete_insert_ne by lia. rewrite delete_insert_eq, delete_empty, insert_empty.
  reflexivity.
Qed.

(** The first read of [recv_item], for a message of several fragments. *)
Lemma consumer_first_multi :
  1 < N ->
  proc_step c (consumer_at c data len 0) (chan_full c data len 0)
  = (consumer_at c data len 1, chan_idle c data len 1).
Proof.
  intros HN.
  assert (Hi : 0 <= Z.of_nat 0 < N) by lia.
  destruct (payload_capacity_bound _ Hi) as [Hsz Hh].
  destruct (send_ulen_bounds c Hc len Hlen _ Hi) as ([H0 H1] & H2 & H3 & _).
  destruct (send_chunks_bounds c Hc len Hlen) as (HN1 & [HN2 HN3] & HN4).
  pose proof (maxlen_bounds c Hc) as [HM0 HM1].
  pose proof (frag_payload_length _ Hi) as Hpl.
  pose proof (reassembly_store 0 Hi) as Hst.
  pose proof (reassembly_S 0 ltac:(lia)) as HS.
  rewrite reassembly_0 in Hst.
  assert (HszM : send_ulen c len N (Z.of_nat 0) = M) by (apply H3; lia).
  unfold consumer_at at 1, recv_item, proc_step. rewrite chan_full_eq.
  rewrite read_ready; [| exact Hsz | exact Hh | exact Hpl | reflexivity].
  cbv iota beta zeta. cbn [rr_rt rr_data rr_len rr_total rr_id rr_heap blocks next_block
                            empty_heap].
  change (negb (0 =? 0)) with false. cbv iota.
  rewrite malloc_ok by reflexivity. cbn [blocks next_block].
  rewrite HszM in *.
  assert (HNM : 0 <= N * M) by (apply Z.mul_nonneg_nonneg; lia).
  assert (HNle : N <= N * M) by (clear - HN1 HM0; nia).
  rewrite (to_size_t_small c (N * M)) by lia.
  rewrite (to_size_t_small c (N - 1)) by lia.
  assert (HMNM : M <= N * M) by (clear - HN1 HM0; nia).
  pose proof (first_copy (Some <$> frag_payload (frag_at c data len (Z.of_nat 0))) M (N * M)
                ltac:(rewrite length_fmap; lia) HMNM) as Hfc.
  destruct (memcpy _ (PBlock 1) 0 (PBlock 0) M) as [h2|]; [|discriminate Hfc].
  rewrite Hfc.
  unfold consumer_at.
  replace (Z.of_nat 1 <? N) with true by (symmetry; apply Z.ltb_lt; lia).
  rewrite <- HS, <- Hst. reflexivity.
Qed.

(** The only read of [recv_item], for a message of one fragment. *)
Lemma consumer_first_single :
  N = 1 ->
  proc_step c (consumer_at c data len 0) (chan_full c data len 0)
  = (consumer_at c data len 1, chan_idle c data len 1).
Proof.
  intros HN.
  assert (Hi : 0 <= Z.of_nat 0 < N) by lia.
  destruct (payload_capacity_bound _ Hi) as [Hsz Hh].
  destruct (send_ulen_bounds c Hc len Hlen _ Hi) as ([H0 H1] & H2 & _ & H4).
  destruct Hc as (_ & Hs & _).
  pose proof (PTRDIFF_MAX_lt c Hs) as Hpd.
  pose proof (frag_payload_length _ Hi) as Hpl.
  assert (Hszl : send_ulen c len N (Z.of_nat 0) = len).
  { specialize (H4 ltac:(lia)). change (Z.of_nat 0 * M) with 0 in H4. lia. }
  assert (Hpay : frag_payload (frag_at c data len (Z.of_nat 0)) = take (Z.to_nat len) data).
  { unfold frag_at. cbn [frag_payload]. rewrite Hszl.
    rewrite (send_ustart_eq c Hc len Hlen _ Hi). reflexivity. }
  unfold consumer_at at 1, recv_item, proc_step. rewrite chan_full_eq.
  rewrite read_ready; [| exact Hsz | exact Hh | exact Hpl | reflexivity].
  cbv iota beta zeta. cbn [rr_rt rr_data rr_len rr_total rr_id rr_heap blocks next_block
                            empty_heap].
  change (negb (0 =? 0)) with false. cbv iota.
  rewrite malloc_ok by reflexivity. cbn [blocks next_block].
  rewrite Hszl in *. rewrite Hpay in *. rewrite HN.
  rewrite Z.mul_1_l. rewrite (to_size_t_small c len) by lia.
  change (1 - 1) with 0. rewrite (to_size_t_small c 0) by lia.
  change (Z.to_nat (0 - 1)) with 0%nat.
  pose proof (first_copy (Some <$> take (Z.to_nat len) data) len len
                ltac:(rewrite length_fmap; lia) ltac:(lia)) as Hfc.
  destruct (memcpy _ (PBlock 1) 0 (PBlock 0) len) as [h2|]; [|discriminate Hfc].
  rewrite Hfc.
  cbn [recv_loop]. unfold recv_last. change (1 <? 1) with false. cbv iota.
  rewrite Z.mul_1_l. rewrite (to_size_t_small c len) by lia.
  unfold consumer_at, final_result, final_blocks. rewrite HN.
  change (Z.of_nat 1 <? 1) with false. change (1 =? 1) with true. cbv iota.
  change (Z.to_nat 0) with 0%nat. rewrite take_0.
  rewrite drop_ge by (rewrite length_replicate, length_fmap; lia).
  rewrite app_nil_r. reflexivity.
Qed.

Lemma final_blocks_eq j :
  (0 < j)%nat -> Z.of_nat (S j) = N ->
  final_blocks c data len
  = <[ 1%nat := Some <$> take (Z.to_nat len) data ]>
      (<[ S j := Some <$> frag_payload (frag_at c data len (Z.of_nat j)) ]>
         {[ 1%nat := reassembly c data len j ]}).
Proof.
  intros Hj HN. unfold final_blocks.
  replace (N =? 1) with false by (symmetry; apply Z.eqb_neq; lia).
  replace (Z.to_nat N) with (S j) by lia.
  replace (N - 1) with (Z.of_nat j) by lia.
  replace (S j - 1)%nat with j by lia.
  reflexivity.
Qed.

(** The last read of [recv_item], for a message of several fragments. *)
Lemma consumer_last j :
  (0 < j)%nat -> Z.of_nat (S j) = N ->
  proc_step c (consumer_at c data len j) (chan_full c data len j)
  = (consumer_at c data len (S j), chan_idle c data len (S j)).
Proof.
  intros Hj0 HjN.
  assert (Hi : 0 <= Z.of_nat j < N) by lia.
  assert (Hfuel : Z.to_nat (N - 1 - Z.of_nat j) = 0%nat) by lia.
  assert (HjN1 : N - 1 = Z.of_nat j) by lia.
  destruct (payload_capacity_bound _ Hi) as [Hsz Hh].
  destruct (send_ulen_bounds c Hc len Hlen _ Hi) as ([H0 H1] & H2 & _ & H4).
  specialize (H4 ltac:(lia)).
  destruct (send_chunks_bounds c Hc len Hlen) as (HN1 & [HN2 HN3] & HN4).
  pose proof (maxlen_bounds c Hc) as [HM0 HM1].
  pose proof (frag_payload_length _ Hi) as Hpl.
  pose proof (reassembly_length _ Hi) as Hrl.
  pose proof (reassembly_store j Hi) as Hst.
  pose proof (final_blocks_eq j Hj0 HjN) as Hfb.
  assert (Hoff : 0 <= Z.of_nat j * M) by (apply Z.mul_nonneg_nonneg; lia).
  assert (HNle : N <= N * M) by (clear - HN1 HM0; nia).
  assert (Hlast : (Z.of_nat (S j) <? N) = false) by (apply Z.ltb_ge; lia).
  unfold consumer_at. rewrite Hlast.
  destruct j as [|j']; [lia|]. set (j := S j') in *. clearbody j.
  replace (Z.of_nat j <? N) with true by (symmetry; apply Z.ltb_lt; lia).
  rewrite Hfuel. cbn [recv_loop]. unfold recv_last.
  replace (1 <? N) with true by (symmetry; apply Z.ltb_lt; lia).
  unfold proc_step. rewrite chan_full_eq.
  rewrite read_ready; [| exact Hsz | exact Hh | exact Hpl | reflexivity].
  cbv iota beta zeta. cbn [rr_rt rr_data rr_len rr_total rr_id rr_heap blocks next_block].
  rewrite (to_size_t_small c (N - 1)) by lia.
  rewrite HjN1.
  rewrite (to_size_t_small c (Z.of_nat j * M)) by lia.
  rewrite H4. rewrite (to_size_t_small c len) by lia.
  rewrite memcpy_into; [| lia | rewrite length_fmap; lia | lia | lia].
  change (negb (0 =? 0)) with false. cbv iota.
  rewrite Hst, H4.
  unfold final_result. rewrite Hfb.
  replace (Z.to_nat N) with (S j) by lia.
  destruct (send_ulen c len N (Z.of_nat j) =? M) eqn:E; cbn [negb]; cbv iota.
  - apply Z.eqb_eq in E.
    replace (Z.to_nat (N * M - Z.of_nat j * M - send_ulen c len N (Z.of_nat j))) with 0%nat
      by lia.
    cbn [replicate]. rewrite app_nil_r. reflexivity.
  - unfold realloc. cbn [blocks next_block alloc_fails tail].
    rewrite lookup_insert_eq. cbv iota beta.
    rewrite insert_insert_eq.
    rewrite resize_app by (rewrite length_fmap, length_take; lia).
    reflexivity.
Qed.

(** The consumer takes fragment [j] out of the segment. *)
Lemma consumer_step j :
  (j < Z.to_nat N)%nat ->
  proc_step c (consumer_at c data len j) (chan_full c data len j)
  = (consumer_at c data len (S j), chan_idle c data len (S j)).
Proof.
  intros Hj.
  destruct j as [|j'].
  - destruct (Z.eq_dec N 1) as [E|E].
    + now apply consumer_first_single.
    + apply consumer_first_multi. lia.
  - destruct (Z.eq_dec (Z.of_nat (S (S j'))) N) as [E|E].
    + apply consumer_last; [lia | exact E].
    + apply consumer_loop; lia.
Qed.

Lemma recv_loop_waits fuel d s t i h ch :
  r_sem ch <= 0 ->
  proc_step c (recv_loop c fuel d s t i h) ch = (recv_loop c fuel d s t i h, ch).
Proof.
  intros Hr. destruct fuel as [|fuel]; cbn [recv_loop].
  - unfold recv_last. destruct (1 <? t); [|reflexivity].
    unfold proc_step. rewrite read_blocked by exact Hr. reflexivity.
  - unfold proc_step. rewrite read_blocked by exact Hr. reflexivity.
Qed.

(** With an empty segment the consumer cannot move. *)
Lemma consumer_waits j :
  proc_step c (consumer_at c data len j) (chan_idle c data len j)
  = (consumer_at c data len j, chan_idle c data len j).
Proof.
  unfold consumer_at. destruct j as [|j'].
  - unfold recv_item, proc_step. rewrite read_blocked by (cbn [chan_idle r_sem]; lia).
    reflexivity.
  - destruct (Z.of_nat (S j') <? N); [|reflexivity].
    apply recv_loop_waits. cbn [chan_idle r_sem]. lia.
Qed.

(** Once every fragment is written the producer has returned. *)
Lemma producer_done j : (Z.to_nat N <= j)%nat -> producer_at c data len j = Ret 0.
Proof.
  intros Hj. unfold producer_at. replace (Z.to_nat N - j)%nat with 0%nat by lia. reflexivity.
Qed.

Lemma consumer_done j : (Z.to_nat N <= j)%nat -> consumer_at c data len j = Ret (final_result c data len).
Proof.
  intros Hj. destruct (send_chunks_bounds c Hc len Hlen) as (HN1 & _).
  unfold consumer_at. destruct j as [|j']; [lia|].
  replace (Z.of_nat (S j') <? N) with false by (symmetry; apply Z.ltb_ge; lia).
  reflexivity.
Qed.

(** Before that the consumer sits at a read. *)
Lemma consumer_pending j r :
  consumer_at c data len j = Ret r -> (Z.to_nat N <= j)%nat.
Proof.
  unfold consumer_at. destruct j as [|j']; [intros [=]|].
  destruct (Z.of_nat (S j') <? N) eqn:E; [|apply Z.ltb_ge in E; lia].
  apply Z.ltb_lt in E.
  destruct (Z.to_nat (N - 1 - Z.of_nat (S j'))) as [|fuel]; cbn [recv_loop].
  - unfold recv_last. replace (1 <? N) with true by (symmetry; apply Z.ltb_lt; lia).
    intros [=].
  - intros [=].
Qed.

Lemma producer_pending j r :
  producer_at c data len j = Ret r -> r = 0.
Proof.
  unfold producer_at. destruct (Z.to_nat N - j)%nat; cbn [send_loop]; intros [=]. congruence.
Qed.

(** *** The system *)

Lemma step_producer_idle j :
  (j < Z.to_nat N)%nat ->
  sys_step c Producer (canon_idle c data len j) = canon_full c data len j.
Proof.
  intros Hj. unfold sys_step, canon_idle, canon_full. cbn [producer consumer sys_chan].
  rewrite producer_step by exact Hj. reflexivity.
Qed.

Lemma step_producer_end j :
  (Z.to_nat N <= j)%nat ->
  sys_step c Producer (canon_idle c data len j) = canon_idle c data len j.
Proof.
  intros Hj. unfold sys_step, canon_idle. cbn [producer consumer sys_chan].
  rewrite (producer_done j Hj). reflexivity.
Qed.

Lemma step_producer_full j :
  sys_step c Producer (canon_full c data len j) = canon_full c data len j.
Proof.
  unfold sys_step, canon_full. cbn [producer consumer sys_chan].
  rewrite producer_waits. reflexivity.
Qed.

Lemma step_consumer_full j :
  (j < Z.to_nat N)%nat ->
  sys_step c Consumer (canon_full c data len j) = canon_idle c data len (S j).
Proof.
  intros Hj. unfold sys_step, canon_idle, canon_full. cbn [producer consumer sys_chan].
  rewrite consumer_step by exact Hj. reflexivity.
Qed.

Lemma step_consumer_idle j :
  sys_step c Consumer (canon_idle c data len j) = canon_idle c data len j.
Proof.
  unfold sys_step, canon_idle. cbn [producer consumer sys_chan].
  rewrite consumer_waits. reflexivity.
Qed.

Lemma transfer_canon : transfer c data len [] = canon_idle c data len 0.
Proof.
  unfold transfer, canon_idle, producer_at, send_item. rewrite Nat.sub_0_r. reflexivity.
Qed.

(** Producer and consumer in turn move [k] fragments. *)
Lemma run_alternate k : forall j,
  (j + k <= Z.to_nat N)%nat ->
  run c (alternate k) (canon_idle c data len j) = canon_idle c data len (j + k).
Proof.
  induction k as [|k IH]; intros j Hj.
  - rewrite Nat.add_0_r. reflexivity.
  - cbn [alternate]. unfold run in *. cbn [fold_left].
    rewrite step_producer_idle by lia. rewrite step_consumer_full by lia.
    rewrite IH by lia. f_equal. lia.
Qed.

(** Whatever the schedule, the system is in one of the states above. *)
Lemma run_canonical sched : forall s,
  (exists j, (j <= Z.to_nat N)%nat /\ s = canon_idle c data len j \/
             (j < Z.to_nat N)%nat /\ s = canon_full c data len j) ->
  exists j, (j <= Z.to_nat N)%nat /\ run c sched s = canon_idle c data len j \/
            (j < Z.to_nat N)%nat /\ run c sched s = canon_full c data len j.
Proof.
  induction sched as [|who sched IH]; intros s Hs; [exact Hs|].
  unfold run in *. cbn [fold_left]. apply IH.
  destruct Hs as (j & [[Hj ->] | [Hj ->]]); destruct who.
  - destruct (Nat.eq_dec j (Z.to_nat N)) as [E|E].
    + exists j. left. split; [lia|]. apply step_producer_end. lia.
    + exists j. right. split; [lia|]. apply step_producer_idle. lia.
  - exists j. left. split; [lia|]. apply step_consumer_idle.
  - exists j. right. split; [lia|]. apply step_producer_full.
  - exists (S j). left. split; [lia|]. apply step_consumer_full. lia.
Qed.

(** What a completed transfer looks like. *)
Lemma transfer_completes :
  run c (alternate (Z.to_nat N)) (transfer c data len [])
  = System (chan_idle c data len (Z.to_nat N)) (Ret 0) (Ret (final_result c data len)).
Proof.
  rewrite transfer_canon, run_alternate by lia.
  unfold canon_idle. rewrite producer_done, consumer_done by lia. reflexivity.
Qed.

(** Under any schedule [recv_item] returns nothing but the message, and
    [send_item] nothing but 0. *)
Lemma transfer_any_schedule sched :
  (forall r, consumer (run c sched (transfer c data len [])) = Ret r ->
             r = final_result c data len) /\
  (forall r, producer (run c sched (transfer c data len [])) = Ret r -> r = 0).
Proof.
  destruct (run_canonical sched (transfer c data len []))
    as (j & [[Hj ->] | [Hj ->]]).
  { exists 0%nat. left. split; [lia | apply transfer_canon]. }
  - unfold canon_idle. cbn [consumer producer]. split; intros r Hr.
    + pose proof (consumer_pending j r Hr). rewrite consumer_done in Hr by lia. congruence.
    + eapply producer_pending; eassumption.
  - unfold canon_full. cbn [consumer producer]. split; intros r Hr.
    + pose proof (consumer_pending j r Hr). lia.
    + eapply producer_pending; eassumption.
Qed.

Lemma final_result_message :
  blocks (rv_heap (final_result c data len)) !! 1%nat = Some (Some <$> take (Z.to_nat len) data).
Proof.
  unfold final_result, final_blocks. cbn [rv_heap blocks].
  destruct (N =? 1); [apply lookup_singleton_eq | apply lookup_insert_eq].
Qed.
End Run.

(** ** Round trip *)

(** C1: [send_item] of a message [m] of positive length on one end and
    [recv_item] on the other, on a channel as [create_shared_memory]
    leaves it and with allocations that succeed: both calls return 0 when
    producer and consumer run in turn, and under every schedule what
    [recv_item] returns is a buffer that holds exactly [m], with the length
    [len m]. The bound on the length is that of any object in memory. *)
Theorem C1_round_trip c (m : list byte) :
  config_ok c ->
  0 < Z.of_nat (length m) <= PTRDIFF_MAX c ->
  let len := Z.of_nat (length m) in
  let s := run c (alternate (Z.to_nat (send_chunks c len))) (transfer c m len []) in
  producer s = Ret 0 /\
  (exists h, consumer s = Ret (RecvResult 0 (PBlock 1) (Some len) h) /\
             blocks h !! 1%nat = Some (Some <$> m)) /\
  forall sched r,
    consumer (run c sched (transfer c m len [])) = Ret r ->
    rv_rc r = 0 /\ rv_len r = Some len /\
    exists b, rv_data r = PBlock b /\ blocks (rv_heap r) !! b = Some (Some <$> m).
Proof.
  intros Hc Hlen len s.
  assert (Hm : take (Z.to_nat len) m = m).
  { apply take_ge. unfold len. lia. }
  pose proof (final_result_message c m len) as Hfin. rewrite Hm in Hfin.
  split; [|split].
  - unfold s. rewrite (transfer_completes c Hc m len Hlen ltac:(lia)). reflexivity.
  - unfold s. rewrite (transfer_completes c Hc m len Hlen ltac:(lia)).
    eexists. split; [reflexivity | exact Hfin].
  - intros sched r Hr.
    destruct (transfer_any_schedule c Hc m len Hlen ltac:(lia) sched) as [Hcons _].
    rewrite (Hcons r Hr).
    split; [reflexivity|]. split; [reflexivity|].
    exists 1%nat. split; [reflexivity | exact Hfin].
Qed.

Lemma C1_round_trip_witness :
  config_ok tiny /\ 0 < 29 <= PTRDIFF_MAX tiny /\ 29 = 3 * maxlen tiny + 17 /\
  producer (run tiny (alternate 8) (transfer tiny msg29 29 [])) = Ret 0 /\
  exists h, consumer (run tiny (alternate 8) (transfer tiny msg29 29 []))
            = Ret (RecvResult 0 (PBlock 1) (Some 29) h) /\
            blocks h !! 1%nat = Some (Some <$> msg29).
Proof.
  assert (Hlen : 0 < Z.of_nat (length msg29) <= PTRDIFF_MAX tiny)
    by (unfold PTRDIFF_MAX; simpl; lia).
  split; [exact tiny_ok|]. split; [exact Hlen|]. split; [reflexivity|].
  destruct (C1_round_trip tiny msg29 tiny_ok Hlen) as (Hp & Hc & _).
  split; [exact Hp | exact Hc].
Defined.

(** The four lengths the specification names are within the bound on the
    shipped build. *)
Lemma named_lengths_in_range :
  Forall (fun len => 0 < len <= PTRDIFF_MAX LP64)
         [1; maxlen LP64; maxlen LP64 + 1; 3 * maxlen LP64 + 17] /\
  send_chunks LP64 1 = 1 /\ send_chunks LP64 (maxlen LP64) = 1 /\
  send_chunks LP64 (maxlen LP64 + 1) = 2 /\
  send_ulen LP64 (maxlen LP64 + 1) 2 1 = 1 /\
  send_chunks LP64 (3 * maxlen LP64 + 17) = 4.
Proof.
  split; [|repeat split; vm_compute; reflexivity].
  repeat constructor; vm_compute; try reflexivity; intros [=].
Qed.

(** ** Fragmentation *)

Section Fragmentation.
Variable c : config.
Hypothesis Hc : config_ok c.
Variable data : list byte.
Variable len : Z.
Hypothesis Hlen : 0 < len <= PTRDIFF_MAX c.

(** Within the fragment count, what [send_item] passes to
    [write_shared_memory] is the fragment of the law. *)
Lemma frag_at_law i :
  0 <= i < send_chunks c len -> frag_at c data len i = law_fragment c data len i.
Proof.
  intros Hi. unfold frag_at, law_fragment, law_length, law_count.
  rewrite <- (send_chunks_ceil c Hc len Hlen).
  rewrite (send_ulen_eq c Hc len Hlen i Hi), (send_ustart_eq c Hc len Hlen i Hi).
  reflexivity.
Qed.

Lemma log_upto_law :
  log_upto c data len (Z.to_nat (send_chunks c len))
  = law_fragment c data len <$> seqZ 0 (send_chunks c len).
Proof.
  unfold log_upto, seqZ. rewrite <- list_fmap_compose.
  apply list_fmap_ext. intros i x Hx.
  apply lookup_seq in Hx. destruct Hx as [-> Hi]. cbn [Nat.add compose].
  rewrite Z.add_0_r. apply frag_at_law. lia.
Qed.
End Fragmentation.

(** Where the fragment index leaves the range of [unsigned] the message
    id is not the index: on the shipped LP64 build, for a payload of
    [2^32 * maxlen + 1] bytes the fragment of index [2^32] is written with
    message id 0. *)
Lemma message_id_is_truncated_LP64 :
  let len := 4294967296 * maxlen LP64 + 1 in
  let data := replicate (Z.to_nat len) x00 in
  let s := run LP64 (alternate (Z.to_nat (send_chunks LP64 len))) (transfer LP64 data len []) in
  0 < len <= PTRDIFF_MAX LP64 /\
  exists f, written (sys_chan s) !! Z.to_nat 4294967296 = Some f /\
            frag_id f = 0 /\ frag_id f <> 4294967296.
Proof.
  intros len data s.
  assert (Hlen : 0 < len <= PTRDIFF_MAX LP64) by (vm_compute; split; [reflexivity | intros [=]]).
  assert (Hdata : len <= Z.of_nat (length data)).
  { unfold data. rewrite length_replicate. lia. }
  assert (HN : send_chunks LP64 len = 4294967297) by (vm_compute; reflexivity).
  split; [exact Hlen|].
  unfold s. rewrite (transfer_completes LP64 LP64_ok data len Hlen Hdata).
  cbn [sys_chan chan_idle written]. unfold log_upto.
  rewrite list_lookup_fmap, HN, lookup_seq_lt by lia.
  eexists. split; [reflexivity|].
  cbn [frag_at frag_id Nat.add]. rewrite Z2Nat.id by lia.
  split; [vm_compute; reflexivity | vm_compute; intros [=]].
Qed.

(** What [send_item] writes for a payload of [C - header_size] bytes on
    the shipped LP64 build: two fragments, of [maxlen] and of 8 bytes. *)
Lemma fragments_of_full_payload_LP64 :
  let len := maxFragmentPayload LP64 in
  let data := replicate (Z.to_nat len) x00 in
  let s := run LP64 (alternate (Z.to_nat (send_chunks LP64 len))) (transfer LP64 data len []) in
  producer s = Ret 0 /\
  frag_id <$> written (sys_chan s) = [0; 1] /\
  frag_len <$> written (sys_chan s) = [3999972; 8] /\
  frag_total <$> written (sys_chan s) = [2; 2].
Proof.
  intros len data s.
  assert (Hlen : 0 < len <= PTRDIFF_MAX LP64) by (vm_compute; split; [reflexivity | intros [=]]).
  assert (Hdata : len <= Z.of_nat (length data)).
  { unfold data. rewrite length_replicate. lia. }
  assert (HN : send_chunks LP64 len = 2) by (vm_compute; reflexivity).
  unfold s. rewrite (transfer_completes LP64 LP64_ok data len Hlen Hdata).
  cbn [producer sys_chan chan_idle written]. rewrite HN.
  change (Z.to_nat 2) with 2%nat. unfold log_upto.
  cbn [seq fmap list_fmap frag_at frag_id frag_len frag_total]. rewrite HN.
  split; [reflexivity|]. split; [vm_compute; reflexivity|].
  split; vm_compute; reflexivity.
Qed.

(** C7, as stated, fails on the shipped LP64 build. A payload of
    [maxFragmentPayload = C - header_size] bytes, one fragment by the law
    of the specification, is sent as two fragments, the first of [maxlen]
    bytes and the second of 8. And for a payload of [2^32 * maxlen + 1]
    bytes the fragment of index [2^32] is written with message id 0. *)
Lemma C7_law_fails_on_the_shipped_build :
  (let len := maxFragmentPayload LP64 in
   let data := replicate (Z.to_nat len) x00 in
   let s := run LP64 (alternate (Z.to_nat (send_chunks LP64 len)))
                (transfer LP64 data len []) in
   len = 3999980 /\ spec_fragment_count LP64 len = 1 /\ send_chunks LP64 len = 2 /\
   frag_len <$> written (sys_chan s) = [3999972; 8] /\
   frag_len <$> written (sys_chan s) <> [len]) /\
  (let len := 4294967296 * maxlen LP64 + 1 in
   let data := replicate (Z.to_nat len) x00 in
   let s := run LP64 (alternate (Z.to_nat (send_chunks LP64 len)))
                (transfer LP64 data len []) in
   0 < len <= PTRDIFF_MAX LP64 /\
   exists f, written (sys_chan s) !! Z.to_nat 4294967296 = Some f /\
             frag_id f = 0 /\ frag_id f <> 4294967296).
Proof.
  split; [|exact message_id_is_truncated_LP64].
  intros len data s.
  destruct fragments_of_full_payload_LP64 as (_ & _ & Hl & _). fold len data s in Hl.
  split; [vm_compute; reflexivity|]. split; [vm_compute; reflexivity|].
  split; [vm_compute; reflexivity|]. split; [exact Hl|].
  rewrite Hl. intros E; discriminate E.
Qed.

(** The same on a build with [maxlen = 1], for a payload of 4 GiB and one
    byte. *)
Lemma message_id_is_truncated_narrow :
  let len := 4294967297 in
  let data := replicate (Z.to_nat len) x00 in
  let s := run narrow (alternate (Z.to_nat (send_chunks narrow len)))
               (transfer narrow data len []) in
  exists f, written (sys_chan s) !! Z.to_nat 4294967296 = Some f /\ frag_id f = 0.
Proof.
  intros len data s.
  assert (Hok : config_ok narrow) by (unfold config_ok, header_size, PTRDIFF_MAX; simpl; lia).
  assert (Hlen : 0 < len <= PTRDIFF_MAX narrow) by (vm_compute; split; [reflexivity | intros [=]]).
  assert (Hdata : len <= Z.of_nat (length data)).
  { unfold data. rewrite length_replicate. lia. }
  assert (HN : send_chunks narrow len = 4294967297) by (vm_compute; reflexivity).
  unfold s. rewrite (transfer_completes narrow Hok data len Hlen Hdata).
  cbn [sys_chan chan_idle written]. unfold log_upto.
  rewrite list_lookup_fmap, HN, lookup_seq_lt by lia.
  eexists. split; [reflexivity|].
  cbn [frag_at frag_id Nat.add]. rewrite Z2Nat.id by lia. vm_compute. reflexivity.
Qed.

(** Where [unsigned] is as wide as [size_t] no index is truncated. *)
Lemma message_id_exact_same_width c len i :
  config_ok c -> sizeof_unsigned c = sizeof_size_t c ->
  0 < len <= PTRDIFF_MAX c -> 0 <= i < send_chunks c len ->
  to_unsigned c i = i.
Proof.
  intros Hc Hw Hlen Hi.
  destruct (send_chunks_bounds c Hc len Hlen) as (HN1 & _ & HN4).
  pose proof (maxlen_bounds c Hc) as [HM0 _].
  unfold to_unsigned, UINT_MOD. rewrite Hw. fold (SIZE_MOD c).
  apply Z.mod_small. nia.
Qed.

(** C7 (amended): for a payload of [len > 0] bytes [send_item] writes
    exactly [ceil(len / maxlen)] fragments, at least one, where [maxlen],
    the limit the code chunks by, is [maxFragmentPayload = C - header_size]
    less the size of a pointer; the fragment of index [i] carries the
    fragment count, the message id [i] converted to [unsigned] (which is
    [i] itself for every index below [2^32], the range of [unsigned]),
    [maxlen] bytes if it is not the last and the remainder if it is, which
    is [maxlen] when [len] is a multiple of [maxlen]. *)
Theorem C7_fragmentation_law c data len :
  config_ok c -> 0 < len <= PTRDIFF_MAX c -> len <= Z.of_nat (length data) ->
  let count := send_chunks c len in
  let s := run c (alternate (Z.to_nat count)) (transfer c data len []) in
  maxlen c = maxFragmentPayload c - sizeof_ptr c /\ 0 < maxlen c < maxFragmentPayload c /\
  count = law_count c len /\ 1 <= count /\
  producer s = Ret 0 /\
  written (sys_chan s) = law_fragment c data len <$> seqZ 0 count /\
  (forall i, 0 <= i < count - 1 -> law_length c len i = maxlen c) /\
  0 < law_length c len (count - 1) <= maxlen c /\
  law_length c len (count - 1) = len - (count - 1) * maxlen c /\
  (len mod maxlen c = 0 -> law_length c len (count - 1) = maxlen c) /\
  (forall i, 0 <= i < count -> i < UINT_MOD c -> frag_id (law_fragment c data len i) = i).
Proof.
  intros Hc Hlen Hdata count s.
  pose proof (send_chunks_ceil c Hc len Hlen) as Hceil.
  destruct (send_chunks_bounds c Hc len Hlen) as (HN1 & [HN2 HN3] & _).
  pose proof (maxlen_bounds c Hc) as [HM0 _].
  split; [rewrite (maxlen_eq c Hc); unfold maxFragmentPayload; lia|].
  split.
  { rewrite (maxlen_eq c Hc) in *. unfold maxFragmentPayload.
    destruct Hc as (? & ? & ? & ? & ?). lia. }
  split; [exact Hceil|]. split; [exact HN1|].
  unfold s, count. rewrite (transfer_completes c Hc data len Hlen Hdata).
  cbn [producer sys_chan chan_idle written].
  split; [reflexivity|]. split; [apply (log_upto_law c Hc data len Hlen)|].
  assert (Hlast : law_length c len (send_chunks c len - 1)
                  = len - (send_chunks c len - 1) * maxlen c).
  { unfold law_length, law_count. rewrite <- Hceil, Z.ltb_irrefl. reflexivity. }
  split.
  { intros i Hi. unfold law_length, law_count. rewrite <- Hceil.
    replace (i <? send_chunks c len - 1) with true by (symmetry; apply Z.ltb_lt; lia).
    reflexivity. }
  split; [rewrite Hlast; lia|]. split; [exact Hlast|].
  split.
  - intros Hmod. rewrite Hlast.
    pose proof (Z.div_mod len (maxlen c) ltac:(lia)) as Hdm. rewrite Hmod in Hdm.
    assert (len / maxlen c = send_chunks c len) by nia. nia.
  - intros i Hi Hu. cbn [law_fragment frag_id]. unfold to_unsigned.
    apply Z.mod_small. lia.
Qed.

Lemma C7_fragmentation_law_witness :
  config_ok tiny /\ 0 < 10 <= PTRDIFF_MAX tiny /\
  written (sys_chan (run tiny (alternate 3) (transfer tiny msg10 10 [])))
  = [Fragment 0 4 3 [x01; x02; x03; x04]; Fragment 1 4 3 [x05; x06; x07; x08];
     Fragment 2 2 3 [x09; x0a]].
Proof.
  assert (Hlen : 0 < 10 <= PTRDIFF_MAX tiny) by (unfold PTRDIFF_MAX; simpl; lia).
  assert (Hdata : 10 <= Z.of_nat (length msg10)) by (simpl; lia).
  split; [exact tiny_ok|]. split; [exact Hlen|].
  destruct (C7_fragmentation_law tiny msg10 10 tiny_ok Hlen Hdata)
    as (_ & _ & _ & _ & _ & Hw & _).
  exact Hw.
Defined.

(** ** The error paths *)

(** On a channel with R = 0 and W = 0 no call gets through: a program
    stays at its call, unless the assertion of a write stops it. *)
Lemma proc_step_dead {A : Type} c (p : proc A) ch :
  r_sem ch <= 0 -> w_sem ch <= 0 ->
  snd (proc_step c p ch) = ch /\
  (fst (proc_step c p ch) = p \/ exists w, fst (proc_step c p ch) = Crash w).
Proof.
  intros Hr Hw. destruct p as [a | w | data len id total k | h d k]; cbn [proc_step].
  - auto.
  - auto.
  - unfold write_shared_memory, beginWrite.
    destruct (negb _); [cbn; eauto|].
    rewrite (proj2 (sem_wait_None (w_sem ch)) Hw). cbn. auto.
  - rewrite read_blocked by exact Hr. cbn. auto.
Qed.

Lemma run_dead c sched : forall s,
  r_sem (sys_chan s) <= 0 -> w_sem (sys_chan s) <= 0 ->
  sys_chan (run c sched s) = sys_chan s /\
  (forall a, producer (run c sched s) = Ret a -> producer s = Ret a) /\
  (forall a, consumer (run c sched s) = Ret a -> consumer s = Ret a).
Proof.
  induction sched as [|who sched IH]; intros s Hr Hw; [cbn; auto|].
  unfold run in *. cbn [fold_left].
  assert (Hstep : sys_chan (sys_step c who s) = sys_chan s /\
                  (producer (sys_step c who s) = producer s \/
                   exists w, producer (sys_step c who s) = Crash w) /\
                  (consumer (sys_step c who s) = consumer s \/
                   exists w, consumer (sys_step c who s) = Crash w)).
  { destruct who; unfold sys_step.
    - destruct (proc_step_dead c (producer s) (sys_chan s) Hr Hw) as [H1 H2].
      destruct (proc_step c (producer s) (sys_chan s)) as [p' ch']. cbn in *. auto.
    - destruct (proc_step_dead c (consumer s) (sys_chan s) Hr Hw) as [H1 H2].
      destruct (proc_step c (consumer s) (sys_chan s)) as [p' ch']. cbn in *. auto. }
  destruct Hstep as (Hch & Hp & Hq).
  destruct (IH (sys_step c who s)) as (IH1 & IH2 & IH3); [rewrite Hch; lia..|].
  split; [congruence|]. split; intros a Ha.
  - apply IH2 in Ha. destruct Hp as [Hp | [w Hp]]; congruence.
  - apply IH3 in Ha. destruct Hq as [Hq | [w Hq]]; congruence.
Qed.

(** C9: every error return of [read_shared_memory] (a reported length of 0
    or above [MAX_BYTES], or a failed allocation) comes after the wait on
    the read semaphore and without a post of the write semaphore; from the
    state (R,W) = (1,0) of a channel that holds a fragment this leaves
    (0,0), in which every write and every read blocks, no step of the
    handshake is enabled, and under every schedule of any two programs the
    channel stays as it is and no pending call returns. *)
Theorem C9_read_error_deadlocks c ch h p r ch' :
  read_shared_memory c ch h p = Returned (r, ch') ->
  rr_rt r <> 0 ->
  (rr_len r <= 0 \/ MAX_BYTES c < rr_len r \/ rr_data r = PNull) /\
  0 < r_sem ch /\ r_sem ch' = r_sem ch - 1 /\ w_sem ch' = w_sem ch /\
  ((r_sem ch, w_sem ch) = (1, 0) ->
   (r_sem ch', w_sem ch') = (0, 0) /\
   (forall data len id total,
      0 < len <= write_bound c -> write_shared_memory c ch' data len id total = Blocked) /\
   (forall h' p', read_shared_memory c ch' h' p' = Blocked) /\
   (forall e, hs_step e (HState ch' 0 0) = None) /\
   (forall sched (prod : proc Z) (cons : proc recv_result),
      let s := run c sched (System ch' prod cons) in
      sys_chan s = ch' /\
      (forall a, producer s = Ret a -> prod = Ret a) /\
      (forall a, consumer s = Ret a -> cons = Ret a))).
Proof.
  intros Hread Hrt.
  assert (Hfacts : (rr_len r <= 0 \/ MAX_BYTES c < rr_len r \/ rr_data r = PNull) /\
                   0 < r_sem ch /\ r_sem ch' = r_sem ch - 1 /\ w_sem ch' = w_sem ch).
  { unfold read_shared_memory, beginRead in Hread.
    destruct (sem_wait (r_sem ch)) as [r1|] eqn:Ew; [|discriminate Hread].
    apply sem_wait_Some in Ew. destruct Ew as [Hpos ->].
    cbn [seg seg_len seg_id seg_total r_sem w_sem] in Hread.
    destruct (orb (seg_len (seg ch) <=? 0) (MAX_BYTES c <? seg_len (seg ch))) eqn:Eb.
    - injection Hread as <- <-. cbn. apply orb_true_iff in Eb.
      split; [|auto]. destruct Eb as [Eb | Eb]; [left; lia | right; left; lia].
    - unfold malloc in Hread.
      destruct (alloc_fails h) as [|[|] rest].
      + destruct (mapping_size c <? header_size c + seg_len (seg ch)); [discriminate Hread|].
        match type of Hread with context [store ?a ?b ?c ?d] => destruct (store a b c d) end;
          [|discriminate Hread].
        injection Hread as <- <-. cbn in Hrt. congruence.
      + injection Hread as <- <-. cbn. auto.
      + destruct (mapping_size c <? header_size c + seg_len (seg ch)); [discriminate Hread|].
        match type of Hread with context [store ?a ?b ?c ?d] => destruct (store a b c d) end;
          [|discriminate Hread].
        injection Hread as <- <-. cbn in Hrt. congruence. }
  destruct Hfacts as (Hcause & Hpos & Hr & Hw).
  split; [exact Hcause|]. split; [exact Hpos|]. split; [exact Hr|]. split; [exact Hw|].
  intros [= HR HW].
  assert (Hr0 : r_sem ch' = 0) by lia. assert (Hw0 : w_sem ch' = 0) by lia.
  split; [congruence|]. split; [|split; [|split]].
  - intros. apply write_blocked; [assumption | lia].
  - intros. apply read_blocked. lia.
  - intros e. destruct e; cbn [hs_step hs_chan hs_writers hs_readers]; try reflexivity.
    + unfold beginWrite. rewrite (proj2 (sem_wait_None _)) by lia. reflexivity.
    + unfold beginRead. rewrite (proj2 (sem_wait_None _)) by lia. reflexivity.
  - intros sched prod cons s.
    apply (run_dead c sched (System ch' prod cons)); cbn [sys_chan]; lia.
Qed.

Lemma C9_read_error_deadlocks_witness :
  let ch := Chan 1 0 (Segment 0 0 1 []) [] in
  let ch' := Chan 0 0 (Segment 0 0 1 []) [] in
  read_shared_memory LP64 ch (empty_heap []) PUninit
  = Returned (ReadResult 1 PUninit 0 1 0 (empty_heap []), ch') /\
  write_shared_memory LP64 ch' [x01] 1 0 1 = Blocked /\
  read_shared_memory LP64 ch' (empty_heap []) PUninit = Blocked.
Proof.
  intros ch ch'.
  assert (Hread : read_shared_memory LP64 ch (empty_heap []) PUninit
                  = Returned (ReadResult 1 PUninit 0 1 0 (empty_heap []), ch'))
    by reflexivity.
  assert (Hrt : rr_rt (ReadResult 1 PUninit 0 1 0 (empty_heap [])) <> 0)
    by (intros [=]).
  destruct (C9_read_error_deadlocks LP64 ch (empty_heap []) PUninit _ ch' Hread Hrt)
    as (_ & _ & _ & _ & Hdead).
  destruct (Hdead eq_refl) as (_ & Hwr & Hrd & _).
  split; [exact Hread|]. split; [apply Hwr; vm_compute; split; [reflexivity | intros [=]]|].
  apply Hrd.
Defined.

(** ** The send side *)

(** A step of the loop of [send_item] leads to the loop again or stops the
    program; it never leads to [return 1]. *)
Lemma send_loop_step c fuel data len chunks i ch :
  (exists fuel' i', fst (proc_step c (send_loop c fuel data len chunks i) ch)
                    = send_loop c fuel' data len chunks i') \/
  (exists w, fst (proc_step c (send_loop c fuel data len chunks i) ch) = Crash w).
Proof.
  destruct fuel as [|fuel]; cbn [send_loop proc_step].
  - left. exists 0%nat, i. reflexivity.
  - destruct (write_shared_memory c ch _ _ _ _) as [| | |[r ch']] eqn:E.
    + left. exists (S fuel), i. reflexivity.
    + right. eexists. reflexivity.
    + right. eexists. reflexivity.
    + destruct (write_shared_memory_run c ch _ _ _ _ r ch' 0 0 E) as [-> _].
      left. exists fuel, (i + 1). reflexivity.
Qed.

Lemma run_sender c data len chunks sched : forall s,
  ((exists fuel i, producer s = send_loop c fuel data len chunks i) \/
   (exists w, producer s = Crash w)) ->
  (exists fuel i, producer (run c sched s) = send_loop c fuel data len chunks i) \/
  (exists w, producer (run c sched s) = Crash w).
Proof.
  induction sched as [|who sched IH]; intros s Hs; [exact Hs|].
  unfold run in *. cbn [fold_left]. apply IH.
  destruct who; unfold sys_step.
  - destruct Hs as [(fuel & i & Hp) | (w & Hp)]; rewrite Hp.
    + pose proof (send_loop_step c fuel data len chunks i (sys_chan s)) as H.
      destruct (proc_step c (send_loop c fuel data len chunks i) (sys_chan s)) as [p' ch'].
      exact H.
    + right. exists w. reflexivity.
  - destruct (proc_step c (consumer s) (sys_chan s)) as [p' ch']. exact Hs.
Qed.

(** C10: [write_shared_memory] has no failing return: whatever it
    returns is 0, and on arguments that satisfy its assertions, with the
    bytes to copy at hand, it returns 0 as soon as W is available.
    Consequently [send_item] never returns 1, on any channel, against any
    consumer and under any schedule, and next to a [recv_item] it returns
    0. *)
Theorem C10_send_has_no_failure c :
  (forall ch data len id total r ch',
     write_shared_memory c ch data len id total = Returned (r, ch') -> r = 0) /\
  (forall ch data len id total,
     0 < len <= write_bound c -> len <= Z.of_nat (length data) -> 0 < w_sem ch ->
     exists ch', write_shared_memory c ch data len id total = Returned (0, ch')) /\
  (forall data len sched ch (peer : proc recv_result) r,
     producer (run c sched (System ch (send_item c data len) peer)) = Ret r -> r = 0) /\
  (config_ok c ->
   forall data len,
     0 < len <= PTRDIFF_MAX c -> len <= Z.of_nat (length data) ->
     producer (run c (alternate (Z.to_nat (send_chunks c len))) (transfer c data len []))
     = Ret 0).
Proof.
  split; [|split; [|split]].
  - intros ch data len id total r ch' H.
    exact (proj1 (write_shared_memory_run c ch data len id total r ch' 0 0 H)).
  - intros ch data len id total Hl Hd Hw. eexists. apply write_ready; assumption.
  - intros data len sched ch peer r Hr.
    destruct (run_sender c data len (send_chunks c len) sched
                (System ch (send_item c data len) peer)) as [(fuel & i & H) | (w & H)].
    { left. eexists _, 0. reflexivity. }
    + rewrite H in Hr. destruct fuel; cbn [send_loop] in Hr; [congruence | discriminate Hr].
    + rewrite H in Hr. discriminate Hr.
  - intros Hc data len Hlen Hdata.
    rewrite (transfer_completes c Hc data len Hlen Hdata). reflexivity.
Qed.

Lemma C10_send_has_no_failure_witness :
  write_shared_memory LP64 fresh_chan [x01; x02] 2 0 1
  = Returned (0, Chan 1 0 (Segment 0 2 1 [x01; x02]) [Fragment 0 2 1 [x01; x02]]) /\
  producer (run tiny (alternate 3) (transfer tiny msg10 10 [])) = Ret 0.
Proof.
  destruct (C10_send_has_no_failure tiny) as (_ & _ & _ & Hsend).
  split; [reflexivity|].
  apply (Hsend tiny_ok msg10 10); [unfold PTRDIFF_MAX; simpl; lia | simpl; lia].
Defined.

(** ** Corrupt fragments *)

(** The loop of [recv_item] has no error return: after a read inside the
    loop the program stops on an undefined operation or goes on with the
    next read, whatever the read returned. *)
Lemma recv_loop_no_error_return c fuel d s t i h ch r :
  fst (proc_step c (recv_loop c (S fuel) d s t i h) ch) = Ret r -> rv_rc r = 0.
Proof.
  cbn [recv_loop proc_step].
  destruct (read_shared_memory c ch h PUninit) as [| | |[rr ch']]; cbn [fst];
    [intros [=] | intros [=] | intros [=] | ].
  destruct (memcpy _ _ _ _ _) as [h1|]; [|intros [=]].
  destruct (free h1 (rr_data rr)) as [h2|]; [|intros [=]].
  destruct (if negb (rr_rt rr =? 0) then free h2 d else Some h2) as [h3|]; [|intros [=]].
  destruct fuel as [|fuel]; cbn [recv_loop]; [|intros [=]].
  unfold recv_last. destruct (1 <? t); [intros [=] | intros [= <-]; reflexivity].
Qed.

(** C2 fails on the code. A header with length 0 (or above [MAX_BYTES])
    makes [read_shared_memory] return 1 before it assigns [*data]; what
    [recv_item] does next is not a clean error return. On the first
    fragment it frees the uninitialised [temp]; on a middle and on the last
    fragment it copies from the uninitialised [_temp], and the loop over
    the middle fragments has no [return] at all. The runs are those of a
    10-byte message in three fragments whose header is damaged before the
    first, the second and the third read, and of a single damaged fragment
    on the shipped build. *)
Theorem C2_corrupt_fragment_is_not_handled :
  let t := transfer tiny msg10 10 [] in
  consumer (run tiny [Consumer] (corrupt_len 0 (run tiny [Producer] t)))
  = Crash UndefinedBehaviour /\
  consumer (run tiny [Consumer]
              (corrupt_len 0 (run tiny [Producer; Consumer; Producer] t)))
  = Crash UndefinedBehaviour /\
  consumer (run tiny [Consumer]
              (corrupt_len 0 (run tiny [Producer; Consumer; Producer; Consumer; Producer] t)))
  = Crash UndefinedBehaviour /\
  consumer (run LP64 [Consumer]
              (System (Chan 1 0 (Segment 0 5000000 1 []) []) (Ret 0)
                      (recv_item LP64 (empty_heap []))))
  = Crash UndefinedBehaviour /\
  (forall c fuel d s t i h ch r,
     fst (proc_step c (recv_loop c (S fuel) d s t i h) ch) = Ret r -> rv_rc r = 0).
Proof.
  intros t.
  split; [vm_compute; reflexivity|].
  split; [vm_compute; reflexivity|].
  split; [vm_compute; reflexivity|].
  split; [vm_compute; reflexivity|].
  apply recv_loop_no_error_return.
Qed.

(** ** Life cycle *)

Lemma os_eta o : OS (sems o) (shms o) = o.
Proof. destruct o. reflexivity. Qed.

Lemma sem_open_existing o name value :
  is_Some (sems o !! name) -> sem_open o name value false = (o, Some name).
Proof. intros [v Hv]. unfold sem_open. rewrite Hv. reflexivity. Qed.

Lemma sem_open_absent o name value :
  sems o !! name = None ->
  sem_open o name value false = (OS (<[name := value]> (sems o)) (shms o), Some name).
Proof. intros Hv. unfold sem_open. rewrite Hv. reflexivity. Qed.

Lemma shm_open_existing o name :
  is_Some (shms o !! name) -> shm_open o name false = (o, Some name).
Proof. intros [v Hv]. unfold shm_open. rewrite Hv. reflexivity. Qed.

Lemma sem_open_ok o name value :
  exists o', sem_open o name value false = (o', Some name) /\
             shms o' = shms o /\
             (forall n v, sems o !! n = Some v -> sems o' !! n = Some v) /\
             (sems o !! name = None -> sems o' !! name = Some value) /\
             (forall n, n <> name -> sems o' !! n = sems o !! n).
Proof.
  unfold sem_open. destruct (sems o !! name) eqn:E.
  - exists o. repeat split; auto. intros [=].
  - eexists. split; [reflexivity|]. cbn [sems shms]. repeat split.
    + intros n v Hn. rewrite lookup_insert_ne; [exact Hn | congruence].
    + intros _. apply lookup_insert_eq.
    + intros n Hn. apply lookup_insert_ne. congruence.
Qed.

Lemma shm_open_ok o name :
  exists o', shm_open o name false = (o', Some name) /\
             sems o' = sems o /\ is_Some (shms o' !! name) /\
             (forall obj, shms o !! name = Some obj -> o' = o).
Proof.
  unfold shm_open. destruct (shms o !! name) eqn:E.
  - exists o. repeat split; eauto.
  - eexists. split; [reflexivity|]. cbn [sems shms]. repeat split.
    + rewrite lookup_insert_eq. eauto.
    + intros obj [=].
Qed.

Lemma ftruncate_sems o fd size hdr a : sems (ftruncate o fd size hdr a) = sems o.
Proof. destruct a; reflexivity. Qed.

Lemma ftruncate_keeps_name o fd size hdr a n :
  is_Some (shms o !! n) -> is_Some (shms (ftruncate o fd size hdr a) !! n).
Proof.
  intros [obj Hn]. destruct a; cbn [ftruncate shms]; eauto.
  rewrite lookup_alter. destruct (decide (fd = n)) as [->|Hne]; rewrite Hn; cbn; eauto.
Qed.

(** Sizing an object that has the size already changes nothing. *)
Lemma ftruncate_same_size o fd size hdr a obj :
  shms o !! fd = Some obj -> shm_size obj = size -> ftruncate o fd size hdr a = o.
Proof.
  intros Hfd Hsz. destruct a; try reflexivity. cbn [ftruncate].
  rewrite alter_id; [apply os_eta|].
  intros x Hx. rewrite Hfd in Hx. injection Hx as <-.
  unfold resize_object. rewrite Hsz, Z.eqb_refl. reflexivity.
Qed.

Lemma lookup_delete_delete_r {V} (m : gmap string V) a b : delete a (delete b m) !! b = None.
Proof.
  destruct (decide (a = b)) as [->|Hne]; [apply lookup_delete_eq|].
  rewrite lookup_delete_ne by exact Hne. apply lookup_delete_eq.
Qed.

(** The calls of one [create_shared_memory] that did not fail, in a state
    where the triple already names a live channel, find what is there. *)
Lemma create_on_live c f o name w r obj :
  is_Some (sems o !! w) -> is_Some (sems o !! r) ->
  shms o !! name = Some obj -> shm_size obj = MAX_BYTES c ->
  w_sem_fails f = false -> r_sem_fails f = false -> shm_open_fails f = false ->
  ftruncate_answer f <> FtError -> mmap_fails f = false ->
  create_shared_memory c f o name w r
  = (0, o, SharedMemory (Some w) (Some r) (Some name) (Some name)).
Proof.
  intros Hw Hr Hn Hsz Fw Fr Fs Ft Fm. unfold create_shared_memory.
  rewrite Fw, Fr, Fs, Fm.
  rewrite (sem_open_existing o w 1 Hw), (sem_open_existing o r 0 Hr).
  rewrite (shm_open_existing o name) by eauto.
  rewrite (ftruncate_same_size o name _ _ _ obj Hn Hsz).
  destruct (ftruncate_answer f); [reflexivity | reflexivity | congruence].
Qed.

(** C4, as stated, fails: on a name space in which a first
    [create_shared_memory] has made the channel, a second one with the
    same three names returns 0. *)
Lemma C4_second_create_returns_0 :
  let first := create_shared_memory LP64 no_faults empty_os "seg" "wsem" "rsem" in
  fst (fst first) = 0 /\
  fst (fst (create_shared_memory LP64 no_faults (snd (fst first)) "seg" "wsem" "rsem")) = 0 /\
  fst (fst (create_shared_memory LP64 no_faults (snd (fst first)) "seg" "wsem" "rsem")) <> 1.
Proof. vm_compute. repeat split; congruence. Qed.

(** C4 (amended): on a live channel a second [create_shared_memory] with
    the same three names does not detect it: unless a call to the
    operating system fails for a reason of its own, it returns 0, attached
    to the semaphores and the segment that exist, and leaves the name
    space, with the semaphore counts and the segment, as it was. *)
Theorem C4_create_on_live_channel c f o name w r obj :
  is_Some (sems o !! w) -> is_Some (sems o !! r) ->
  shms o !! name = Some obj -> shm_size obj = MAX_BYTES c ->
  w_sem_fails f = false -> r_sem_fails f = false -> shm_open_fails f = false ->
  ftruncate_answer f <> FtError -> mmap_fails f = false ->
  exists self,
    create_shared_memory c f o name w r = (0, o, self) /\
    sm_w_sem self = Some w /\ sm_r_sem self = Some r /\
    sm_fd self = Some name /\ sm_data self = Some name /\
    handshake_of o w r = (sems o !! r, sems o !! w).
Proof.
  intros. eexists. split; [eapply create_on_live; eassumption|].
  cbn [sm_w_sem sm_r_sem sm_fd sm_data]. unfold handshake_of. auto 10.
Qed.

Lemma C4_create_on_live_channel_witness :
  let o := OS {[ "wsem" := 0; "rsem" := 1 ]}
              {[ "seg" := ShmObject 4000000 (Segment 0 2 1 [x01; x02]) ]} in
  exists self, create_shared_memory LP64 no_faults o "seg" "wsem" "rsem" = (0, o, self) /\
               sm_data self = Some "seg".
Proof.
  intros o.
  assert (Hw : is_Some (sems o !! "wsem")) by (vm_compute; eauto).
  assert (Hr : is_Some (sems o !! "rsem")) by (vm_compute; eauto).
  assert (Hft : ftruncate_answer no_faults <> FtError) by (intros [=]).
  destruct (C4_create_on_live_channel LP64 no_faults o "seg" "wsem" "rsem"
              (ShmObject 4000000 (Segment 0 2 1 [x01; x02]))
              Hw Hr eq_refl eq_refl eq_refl eq_refl eq_refl Hft eq_refl)
    as (self & H & _ & _ & _ & Hd & _).
  exists self. split; [exact H | exact Hd].
Defined.

Lemma open_on_live c f o name w r obj :
  is_Some (sems o !! w) -> is_Some (sems o !! r) ->
  shms o !! name = Some obj -> shm_size obj = MAX_BYTES c ->
  w_sem_fails f = false -> r_sem_fails f = false -> shm_open_fails f = false ->
  ftruncate_answer f <> FtError -> mmap_fails f = false ->
  open_shared_memory c f o name w r
  = (0, o, SharedMemory (Some w) (Some r) (Some name) (Some name)).
Proof.
  intros Hw Hr Hn Hsz Fw Fr Fs Ft Fm. unfold open_shared_memory.
  rewrite Fw, Fr, Fs, Fm.
  rewrite (sem_open_existing o w 1 Hw), (sem_open_existing o r 0 Hr).
  rewrite (shm_open_existing o name) by eauto.
  rewrite (ftruncate_same_size o name _ _ _ obj Hn Hsz).
  destruct (ftruncate_answer f); [reflexivity | reflexivity | congruence].
Qed.

(** Without a failure of the operating system [open_shared_memory]
    succeeds whatever exists: it keeps every semaphore that exists with
    its count and creates the ones that are missing. *)
Lemma open_succeeds c f o name w r :
  w_sem_fails f = false -> r_sem_fails f = false -> shm_open_fails f = false ->
  ftruncate_answer f <> FtError -> mmap_fails f = false ->
  exists o',
    open_shared_memory c f o name w r
    = (0, o', SharedMemory (Some w) (Some r) (Some name) (Some name)) /\
    (forall n v, sems o !! n = Some v -> sems o' !! n = Some v) /\
    (sems o !! w = None -> sems o' !! w = Some 1) /\
    (sems o !! r = None -> w <> r -> sems o' !! r = Some 0) /\
    is_Some (shms o' !! name).
Proof.
  intros Fw Fr Fs Ft Fm. unfold open_shared_memory. rewrite Fw, Fr, Fs, Fm.
  destruct (sem_open_ok o w 1) as (o1 & -> & Hs1 & Hk1 & Hn1 & Ho1).
  destruct (sem_open_ok o1 r 0) as (o2 & -> & Hs2 & Hk2 & Hn2 & Ho2).
  destruct (shm_open_ok o2 name) as (o3 & -> & Hs3 & Hi3 & _).
  exists (ftruncate o3 name (MAX_BYTES c) (header_size c) (ftruncate_answer f)).
  split; [destruct (ftruncate_answer f); [reflexivity | reflexivity | congruence]|].
  rewrite ftruncate_sems, Hs3.
  split; [intros n v Hn; auto|].
  split; [intros Hn; auto|].
  split; [|apply ftruncate_keeps_name; exact Hi3].
  intros Hn Hne. apply Hn2. rewrite Ho1 by congruence. exact Hn.
Qed.

(** C5, as stated, fails: [open_shared_memory] passes [O_CREAT] to every
    call, so it succeeds on names that do not exist, also right after
    [close_shared_memory] has unlinked them. *)
Lemma C5_open_succeeds_on_missing_names :
  fst (fst (open_shared_memory LP64 no_faults empty_os "seg" "wsem" "rsem")) = 0 /\
  let o1 := snd (fst (create_shared_memory LP64 no_faults empty_os "seg" "wsem" "rsem")) in
  let o2 := close_shared_memory o1 "seg" "wsem" "rsem" in
  sems o2 !! "wsem" = None /\ sems o2 !! "rsem" = None /\ shms o2 !! "seg" = None /\
  fst (fst (open_shared_memory LP64 no_faults o2 "seg" "wsem" "rsem")) = 0.
Proof. vm_compute. repeat split; reflexivity. Qed.

(** C5 (amended): unless a call to the operating system fails for a reason
    of its own, [open_shared_memory] returns 0 whether or not the segment
    and the semaphores exist. When it attaches to existing ones it does
    not alter the handshake state (R, W), and on a live channel it leaves
    the whole name space as it was; the ones that are missing it creates,
    the write semaphore with count 1 and the read semaphore with count 0,
    so that after [close_shared_memory] has unlinked the triple a
    following [open_shared_memory] succeeds on a fresh channel in state
    (R, W) = (0, 1). *)
Theorem C5_open_attaches_or_creates c f o name w r :
  w_sem_fails f = false -> r_sem_fails f = false -> shm_open_fails f = false ->
  ftruncate_answer f <> FtError -> mmap_fails f = false ->
  exists o' self,
    open_shared_memory c f o name w r = (0, o', self) /\
    sm_w_sem self = Some w /\ sm_r_sem self = Some r /\ sm_data self = Some name /\
    (forall v, sems o !! w = Some v -> sems o' !! w = Some v) /\
    (forall v, sems o !! r = Some v -> sems o' !! r = Some v) /\
    (is_Some (sems o !! w) -> is_Some (sems o !! r) ->
     (exists obj, shms o !! name = Some obj /\ shm_size obj = MAX_BYTES c) -> o' = o) /\
    (sems o !! w = None -> sems o' !! w = Some 1) /\
    (sems o !! r = None -> w <> r -> sems o' !! r = Some 0) /\
    is_Some (shms o' !! name) /\
    (forall o0, o = close_shared_memory o0 name w r -> w <> r ->
                handshake_of o' w r = (Some 0, Some 1)).
Proof.
  intros Fw Fr Fs Ft Fm.
  destruct (open_succeeds c f o name w r Fw Fr Fs Ft Fm) as (o' & Ho & Hk & Hnw & Hnr & Hshm).
  exists o', (SharedMemory (Some w) (Some r) (Some name) (Some name)).
  split; [exact Ho|]. cbn [sm_w_sem sm_r_sem sm_data].
  split; [reflexivity|]. split; [reflexivity|]. split; [reflexivity|].
  split; [intros v; apply Hk|]. split; [intros v; apply Hk|].
  split.
  { intros Hw Hr (obj & Hobj & Hsz).
    rewrite (open_on_live c f o name w r obj Hw Hr Hobj Hsz Fw Fr Fs Ft Fm) in Ho.
    congruence. }
  split; [exact Hnw|]. split; [exact Hnr|]. split; [exact Hshm|].
  intros o0 -> Hne. unfold handshake_of.
  rewrite Hnw, Hnr; [reflexivity | | exact Hne | ].
  - unfold close_shared_memory, sem_unlink. cbn [sems]. apply lookup_delete_eq.
  - unfold close_shared_memory, sem_unlink. cbn [sems]. apply lookup_delete_delete_r.
Qed.

Lemma C5_open_attaches_or_creates_witness :
  exists o' self,
    open_shared_memory LP64 no_faults empty_os "seg" "wsem" "rsem" = (0, o', self) /\
    sems o' !! "wsem" = Some 1 /\ sems o' !! "rsem" = Some 0.
Proof.
  assert (Hft : ftruncate_answer no_faults <> FtError) by (intros [=]).
  destruct (C5_open_attaches_or_creates LP64 no_faults empty_os "seg" "wsem" "rsem"
              eq_refl eq_refl eq_refl Hft eq_refl)
    as (o' & self & Ho & _ & _ & _ & _ & _ & _ & Hw & Hr & _).
  exists o', self. split; [exact Ho|].
  split; [apply Hw; reflexivity | apply Hr; [reflexivity | intros [=]]].
Defined.

(** What is left of the name space after the unlinks of a failure path. *)
Ltac unlinked :=
  cbn [sems shms sem_unlink shm_unlink ftruncate];
  first [ apply lookup_delete_eq | apply lookup_delete_delete_r
        | rewrite ftruncate_sems; first [apply lookup_delete_eq | apply lookup_delete_delete_r] ].

(** A semaphore that was opened is in the name space. *)
Lemma sem_open_present o name value o' h :
  sem_open o name value false = (o', h) -> is_Some (sems o' !! name).
Proof.
  unfold sem_open. destruct (sems o !! name) as [v|] eqn:E; intros [= <- _].
  - rewrite E. eauto.
  - cbn [sems]. rewrite lookup_insert_eq. eauto.
Qed.

(** C8, as stated, fails at the sizing step: when [ftruncate] fails with
    [EINVAL], [create_shared_memory] releases nothing and returns no error.
    On fresh names it returns 0, both semaphores and the region stay in the
    name space, and the region that is mapped was never sized. *)
Lemma C8_sizing_failure_is_not_rolled_back :
  let f := Faults false false false FtEINVAL false in
  exists o',
    create_shared_memory LP64 f empty_os "seg" "wsem" "rsem"
    = (0, o', SharedMemory (Some "wsem") (Some "rsem") (Some "seg") (Some "seg")) /\
    sems o' !! "wsem" = Some 1 /\ sems o' !! "rsem" = Some 0 /\
    shms o' !! "seg" = Some (ShmObject 0 zero_segment).
Proof.
  intros f. eexists. split; [vm_compute; reflexivity|].
  split; [vm_compute; reflexivity|]. split; vm_compute; reflexivity.
Qed.

(** C8 (amended): [create_shared_memory] returns 1 exactly when the
    creation of the write semaphore, of the read semaphore or of the
    region fails, when the sizing fails with an error other than [EINVAL],
    or when the mapping fails; then every resource the call had acquired
    before (the handles it had stored in [self]) is unlinked: the write
    semaphore, the read semaphore and the region are no longer in the name
    space when the error is returned. A sizing that fails with [EINVAL]
    is not taken as a failure: nothing is released and the call goes on to
    the mapping; if that succeeds the call returns 0 with both semaphores
    and the region in the name space. *)
Theorem C8_create_rolls_back c f o name w r :
  forall rc o' self,
    create_shared_memory c f o name w r = (rc, o', self) ->
    (rc = 1 <->
     w_sem_fails f = true \/ r_sem_fails f = true \/ shm_open_fails f = true \/
     ftruncate_answer f = FtError \/ mmap_fails f = true) /\
    (rc = 0 \/ rc = 1) /\
    (rc = 1 ->
     (sm_w_sem self <> None -> sems o' !! w = None) /\
     (sm_r_sem self <> None -> sems o' !! r = None) /\
     (sm_fd self <> None -> shms o' !! name = None)) /\
    (ftruncate_answer f = FtEINVAL ->
     w_sem_fails f = false -> r_sem_fails f = false -> shm_open_fails f = false ->
     mmap_fails f = false ->
     rc = 0 /\ self = SharedMemory (Some w) (Some r) (Some name) (Some name) /\
     is_Some (sems o' !! w) /\ is_Some (sems o' !! r) /\ is_Some (shms o' !! name) /\
     (forall n v, sems o !! n = Some v -> sems o' !! n = Some v) /\
     (forall n obj, shms o !! n = Some obj -> shms o' !! n = Some obj)).
Proof.
  intros rc o' self. unfold create_shared_memory.
  destruct f as [fw fr fs ft fm]. cbn [w_sem_fails r_sem_fails shm_open_fails
                                       ftruncate_answer mmap_fails].
  destruct fw.
  { cbn [sem_open]. intros [= <- <- <-]. cbn [sm_w_sem sm_r_sem sm_fd].
    split; [split; auto|]. split; [auto|].
    split; [|intros _ E; discriminate E]. intros _. repeat split; congruence. }
  destruct (sem_open o w 1 false) as [o1 hw] eqn:Ew.
  pose proof (sem_open_present _ _ _ _ _ Ew) as Hpw.
  destruct (sem_open_ok o w 1) as (o1' & Ew' & Hsh1 & Hk1 & _).
  rewrite Ew in Ew'. injection Ew' as <- ->.
  destruct fr.
  { cbn [sem_open]. intros [= <- <- <-]. cbn [sm_w_sem sm_r_sem sm_fd].
    split; [split; auto|]. split; [auto|].
    split; [|intros _ _ E; discriminate E]. intros _.
    split; [intros _; unlinked|]. split; congruence. }
  destruct (sem_open o1 r 0 false) as [o2 hr] eqn:Er.
  pose proof (sem_open_present _ _ _ _ _ Er) as Hpr.
  destruct (sem_open_ok o1 r 0) as (o2' & Er' & Hsh2 & Hk2 & _).
  rewrite Er in Er'. injection Er' as <- ->.
  destruct fs.
  { cbn [shm_open]. intros [= <- <- <-]. cbn [sm_w_sem sm_r_sem sm_fd].
    split; [split; auto 6|]. split; [auto|].
    split; [|intros _ _ _ E; discriminate E]. intros _.
    split; [intros _; unlinked|]. split; [intros _; unlinked | congruence]. }
  destruct (shm_open o2 name false) as [o3 hs] eqn:Es.
  destruct (shm_open_ok o2 name) as (o3' & Es' & Hse3 & Hp3 & _).
  rewrite Es in Es'. injection Es' as <- ->.
  destruct ft.
  - destruct fm; intros [= <- <- <-]; cbn [sm_w_sem sm_r_sem sm_fd].
    + split; [split; auto 8|]. split; [auto|].
      split; [|intros E; discriminate E]. intros _.
      split; [intros _; unlinked|]. split; intros _; unlinked.
    + split; [|split; [auto | split; [intros [=] | intros E; discriminate E]]].
      split; [intros [=] | intros [H|[H|[H|[H|H]]]]; discriminate H].
  - destruct fm; intros [= <- <- <-]; cbn [sm_w_sem sm_r_sem sm_fd].
    + split; [split; auto 8|]. split; [auto|].
      split; [|intros _ _ _ _ E; discriminate E]. intros _.
      split; [intros _; unlinked|]. split; intros _; unlinked.
    + split; [|split; [auto | split; [intros [=]|]]].
      { split; [intros [=] | intros [H|[H|[H|[H|H]]]]; discriminate H]. }
      intros _ _ _ _ _. cbn [ftruncate].
      split; [reflexivity|]. split; [reflexivity|].
      destruct Hpw as [vw Hvw].
      split; [rewrite Hse3; eauto|]. split; [rewrite Hse3; exact Hpr|].
      split; [exact Hp3|]. split.
      * intros n v Hn. rewrite Hse3. auto.
      * intros n obj Hn. rewrite <- Hsh1, <- Hsh2 in Hn.
        revert Es. unfold shm_open.
        destruct (shms o2 !! name) eqn:E2; intros [= <-]; [exact Hn|].
        cbn [shms]. rewrite lookup_insert_ne; [exact Hn | congruence].
  - intros [= <- <- <-]; cbn [sm_w_sem sm_r_sem sm_fd].
    split; [split; auto 8|]. split; [auto|].
    split; [|intros E; discriminate E]. intros _.
    split; [intros _; unlinked|]. split; intros _; unlinked.
Qed.

Lemma C8_create_rolls_back_witness :
  let f := Faults false false false FtOk true in
  exists o' self,
    create_shared_memory LP64 f empty_os "seg" "wsem" "rsem" = (1, o', self) /\
    sm_fd self = Some "seg" /\
    sems o' !! "wsem" = None /\ sems o' !! "rsem" = None /\ shms o' !! "seg" = None.
Proof.
  intros f.
  destruct (create_shared_memory LP64 f empty_os "seg" "wsem" "rsem")
    as [[rc o'] self] eqn:E.
  assert (Hrc : rc = 1) by (vm_compute in E; congruence).
  assert (Hself : self = SharedMemory (Some "wsem") (Some "rsem") (Some "seg") None)
    by (vm_compute in E; congruence).
  destruct (C8_create_rolls_back LP64 f empty_os "seg" "wsem" "rsem" rc o' self E)
    as (_ & _ & Hroll & _).
  destruct (Hroll Hrc) as (Hw & Hr & Hs).
  subst self rc. exists o', (SharedMemory (Some "wsem") (Some "rsem") (Some "seg") None).
  split; [reflexivity|]. split; [reflexivity|].
  split; [apply Hw; intros [=]|]. split; [apply Hr; intros [=] | apply Hs; intros [=]].
Defined.

(* ===================================================================== *)
(** * Further properties of the code *)
(* ===================================================================== *)

(** ** The two transactions *)

Lemma malloc_succeeds h n :
  hd false (alloc_fails h) = false ->
  malloc h n = (Heap (<[next_block h := replicate (Z.to_nat n) None]> (blocks h))
                     (S (next_block h)) (tail (alloc_fails h)), PBlock (next_block h)).
Proof.
  unfold malloc. destruct (alloc_fails h) as [|[|] rest]; cbn [hd]; intros H;
    [reflexivity | discriminate H | reflexivity].
Qed.

(** A read of a fragment whose length fits the payload area, with an
    allocation that succeeds, whatever the segment holds behind it. *)
Lemma read_general c ch h p :
  0 < r_sem ch -> 0 < seg_len (seg ch) <= payload_capacity c -> 0 <= header_size c ->
  hd false (alloc_fails h) = false ->
  read_shared_memory c ch h p =
  Returned (ReadResult 0 (PBlock (next_block h)) (seg_len (seg ch)) (seg_total (seg ch))
              (seg_id (seg ch))
              (Heap (<[next_block h :=
                         Some <$> resize (Z.to_nat (seg_len (seg ch))) x00
                                         (seg_payload (seg ch))]> (blocks h))
                    (S (next_block h)) (tail (alloc_fails h))),
            Chan (r_sem ch - 1) (w_sem ch + 1) zero_segment (written ch)).
Proof.
  intros Hr [H0 H1] Hh Hf. unfold payload_capacity in H1.
  unfold read_shared_memory, beginRead, sem_wait.
  replace (0 <? r_sem ch) with true by (symmetry; apply Z.ltb_lt; lia).
  cbn [r_sem w_sem seg written].
  replace (seg_len (seg ch) <=? 0) with false by (symmetry; apply Z.leb_gt; lia).
  replace (MAX_BYTES c <? seg_len (seg ch)) with false by (symmetry; apply Z.ltb_ge; lia).
  cbv [orb]. rewrite (malloc_succeeds h _ Hf).
  replace (mapping_size c <? header_size c + seg_len (seg ch)) with false
    by (symmetry; apply Z.ltb_ge; pose proof (mapping_covers c);
        unfold payload_capacity in *; lia).
  rewrite (store_blocks _ (next_block h) 0 _ (replicate (Z.to_nat (seg_len (seg ch))) None));
    [ | cbn [blocks]; apply lookup_insert_eq | lia
      | rewrite length_fmap, length_resize, length_replicate; lia ].
  cbn [blocks next_block alloc_fails]. unfold endRead, sem_post. cbn [r_sem w_sem seg written].
  rewrite insert_insert_eq, length_fmap, length_resize.
  change (Z.to_nat 0) with 0%nat. rewrite take_0.
  rewrite drop_ge by (rewrite length_replicate; lia).
  rewrite app_nil_r. reflexivity.
Qed.

(** One fragment through the segment: [write_shared_memory] on a
    channel with W available, then [read_shared_memory] with an allocation
    that succeeds, hands over the id, the length, the count and exactly the
    [len] bytes written, whatever the segment held before; the semaphores
    are back where they were and the segment is zeroed. *)
Theorem write_then_read c ch data len id total h p :
  config_ok c ->
  0 < len <= write_bound c -> len <= Z.of_nat (length data) ->
  0 < w_sem ch -> 0 <= r_sem ch -> hd false (alloc_fails h) = false ->
  exists ch1 ch2 h',
    write_shared_memory c ch data len id total = Returned (0, ch1) /\
    read_shared_memory c ch1 h p
    = Returned (ReadResult 0 (PBlock (next_block h)) len total id h', ch2) /\
    blocks h' !! next_block h = Some (Some <$> take (Z.to_nat len) data) /\
    r_sem ch2 = r_sem ch /\ w_sem ch2 = w_sem ch /\ seg ch2 = zero_segment.
Proof.
  intros Hc Hlen Hdata Hw Hr Hf.
  pose proof (write_bound_eq c Hc) as Hwb.
  assert (Hh : 0 <= header_size c)
    by (destruct Hc as (? & ? & ? & ? & ?); unfold header_size; lia).
  eexists _, _, _. split; [apply write_ready; assumption|].
  split.
  - rewrite read_general; [ | unfold endWrite, sem_post; cbn [r_sem]; lia
                            | unfold endWrite; cbn [seg seg_len]; unfold payload_capacity; lia
                            | exact Hh | exact Hf ].
    unfold endWrite. cbn [seg seg_len seg_id seg_total seg_payload]. reflexivity.
  - cbn [blocks r_sem w_sem seg]. unfold sem_post.
    split; [|split; [lia | split; [lia | reflexivity]]].
    rewrite lookup_insert_eq. f_equal. f_equal.
    apply resize_app. rewrite length_take. lia.
Qed.

Lemma write_then_read_witness :
  exists ch1 ch2 h',
    write_shared_memory LP64 (Chan 0 1 (Segment 7 3 9 [x0a; x0b; x0c]) []) [x01; x02] 2 0 1
    = Returned (0, ch1) /\
    read_shared_memory LP64 ch1 (empty_heap []) PUninit
    = Returned (ReadResult 0 (PBlock 0) 2 1 0 h', ch2) /\
    blocks h' !! 0%nat = Some [Some x01; Some x02].
Proof.
  assert (Hlen : 0 < 2 <= write_bound LP64)
    by (vm_compute; split; [reflexivity | intros [=]]).
  assert (Hdata : 2 <= Z.of_nat (length [x01; x02])) by (simpl; lia).
  assert (HW : 0 < w_sem (Chan 0 1 (Segment 7 3 9 [x0a; x0b; x0c]) [])) by (simpl; lia).
  assert (HR : 0 <= r_sem (Chan 0 1 (Segment 7 3 9 [x0a; x0b; x0c]) [])) by (simpl; lia).
  destruct (write_then_read LP64 (Chan 0 1 (Segment 7 3 9 [x0a; x0b; x0c]) [])
              [x01; x02] 2 0 1 (empty_heap []) PUninit LP64_ok Hlen Hdata HW HR eq_refl)
    as (ch1 & ch2 & h' & Hw & Hr & Hb & _).
  exists ch1, ch2, h'. split; [exact Hw|]. split; [exact Hr | exact Hb].
Defined.

(** A read of a fragment whose reported length passes the check, with an
    allocation that succeeds. *)
Lemma read_within_max c ch h p :
  0 < r_sem ch -> 0 < seg_len (seg ch) <= MAX_BYTES c ->
  header_size c + seg_len (seg ch) <= mapping_size c ->
  hd false (alloc_fails h) = false ->
  read_shared_memory c ch h p =
  Returned (ReadResult 0 (PBlock (next_block h)) (seg_len (seg ch)) (seg_total (seg ch))
              (seg_id (seg ch))
              (Heap (<[next_block h :=
                         Some <$> resize (Z.to_nat (seg_len (seg ch))) x00
                                         (seg_payload (seg ch))]> (blocks h))
                    (S (next_block h)) (tail (alloc_fails h))),
            Chan (r_sem ch - 1) (w_sem ch + 1) zero_segment (written ch)).
Proof.
  intros Hr [H0 H1] Hm Hf.
  unfold read_shared_memory, beginRead, sem_wait.
  replace (0 <? r_sem ch) with true by (symmetry; apply Z.ltb_lt; lia).
  cbn [r_sem w_sem seg written].
  replace (seg_len (seg ch) <=? 0) with false by (symmetry; apply Z.leb_gt; lia).
  replace (MAX_BYTES c <? seg_len (seg ch)) with false by (symmetry; apply Z.ltb_ge; lia).
  cbv [orb]. rewrite (malloc_succeeds h _ Hf).
  replace (mapping_size c <? header_size c + seg_len (seg ch)) with false
    by (symmetry; apply Z.ltb_ge; lia).
  rewrite (store_blocks _ (next_block h) 0 _ (replicate (Z.to_nat (seg_len (seg ch))) None));
    [ | cbn [blocks]; apply lookup_insert_eq | lia
      | rewrite length_fmap, length_resize, length_replicate; lia ].
  cbn [blocks next_block alloc_fails]. unfold endRead, sem_post. cbn [r_sem w_sem seg written].
  rewrite insert_insert_eq, length_fmap, length_resize.
  change (Z.to_nat 0) with 0%nat. rewrite take_0.
  rewrite drop_ge by (rewrite length_replicate; lia).
  rewrite app_nil_r. reflexivity.
Qed.

(** The length check of [read_shared_memory] compares with [MAX_BYTES],
    not with the bytes the object holds behind the header: a reported
    length above [MAX_BYTES - header_size] and up to [MAX_BYTES] is
    accepted. The copy then ends behind the [MAX_BYTES] bytes of the
    object; where it stays inside the last page of the mapping the read
    returns 0, and the buffer handed over holds the whole payload area
    followed by bytes that were never in the object, all of them zero. *)
Theorem read_accepts_length_past_the_segment c ch h p :
  config_ok c -> 0 < r_sem ch ->
  payload_capacity c < seg_len (seg ch) <= MAX_BYTES c ->
  header_size c + seg_len (seg ch) <= mapping_size c ->
  Z.of_nat (length (seg_payload (seg ch))) <= payload_capacity c ->
  hd false (alloc_fails h) = false ->
  MAX_BYTES c < header_size c + seg_len (seg ch) /\
  exists bytes h' ch',
    read_shared_memory c ch h p
    = Returned (ReadResult 0 (PBlock (next_block h)) (seg_len (seg ch)) (seg_total (seg ch))
                  (seg_id (seg ch)) h', ch') /\
    blocks h' !! next_block h = Some (Some <$> bytes) /\
    Z.of_nat (length bytes) = seg_len (seg ch) /\
    take (Z.to_nat (payload_capacity c)) bytes
    = resize (Z.to_nat (payload_capacity c)) x00 (seg_payload (seg ch)) /\
    drop (Z.to_nat (payload_capacity c)) bytes
    = replicate (Z.to_nat (seg_len (seg ch) - payload_capacity c)) x00.
Proof.
  intros Hc Hr [H0 H1] Hm Hp Hf.
  assert (Hcap : 0 < payload_capacity c)
    by (destruct Hc as (? & ? & ? & ? & ?); unfold payload_capacity; lia).
  split; [unfold payload_capacity in H0; lia|].
  eexists _, _, _. split; [apply read_within_max; [exact Hr | lia | exact Hm | exact Hf]|].
  cbn [blocks]. split; [apply lookup_insert_eq|].
  split; [rewrite length_resize; lia|]. split.
  - rewrite take_resize. f_equal. lia.
  - rewrite resize_spec, take_ge by lia.
    rewrite drop_app_ge by lia. rewrite drop_replicate. f_equal. lia.
Qed.

Lemma read_accepts_length_past_the_segment_witness :
  MAX_BYTES LP64 < header_size LP64 + 3999990 /\
  exists bytes h' ch',
    read_shared_memory LP64 (Chan 1 0 (Segment 7 3999990 1 [x01; x02]) []) (empty_heap [])
                       PUninit
    = Returned (ReadResult 0 (PBlock 0) 3999990 1 7 h', ch') /\
    blocks h' !! 0%nat = Some (Some <$> bytes) /\
    Z.of_nat (length bytes) = 3999990 /\
    take (Z.to_nat (payload_capacity LP64)) bytes
    = resize (Z.to_nat (payload_capacity LP64)) x00 [x01; x02] /\
    drop (Z.to_nat (payload_capacity LP64)) bytes
    = replicate (Z.to_nat (3999990 - payload_capacity LP64)) x00.
Proof.
  apply (read_accepts_length_past_the_segment LP64
           (Chan 1 0 (Segment 7 3999990 1 [x01; x02]) []) (empty_heap []) PUninit LP64_ok).
  - simpl. lia.
  - unfold payload_capacity, header_size. simpl. lia.
  - vm_compute. intros E; discriminate E.
  - unfold payload_capacity, header_size. simpl. lia.
  - reflexivity.
Defined.

(** ** [recv_item] and [send_item] at their edges *)

(** When the allocation inside the first read fails, [read_shared_memory]
    has set [temp] to [NULL]; [recv_item] frees it and returns 1 with
    nothing allocated and [*data], [*len] unassigned. The fragment stays in
    the segment and W is not posted. *)
Theorem recv_item_first_allocation_fails c ch h rest :
  0 < r_sem ch -> 0 < seg_len (seg ch) <= MAX_BYTES c ->
  alloc_fails h = true :: rest ->
  proc_step c (recv_item c h) ch
  = (Ret (RecvResult 1 PUninit None (Heap (blocks h) (next_block h) rest)),
     Chan (r_sem ch - 1) (w_sem ch) (seg ch) (written ch)).
Proof.
  intros Hr [H0 H1] Hf.
  unfold recv_item, proc_step, read_shared_memory, beginRead, sem_wait.
  replace (0 <? r_sem ch) with true by (symmetry; apply Z.ltb_lt; lia).
  cbn [r_sem w_sem seg written].
  replace (seg_len (seg ch) <=? 0) with false by (symmetry; apply Z.leb_gt; lia).
  replace (MAX_BYTES c <? seg_len (seg ch)) with false by (symmetry; apply Z.ltb_ge; lia).
  cbv [orb]. unfold malloc. rewrite Hf. reflexivity.
Qed.

Lemma recv_item_first_allocation_fails_witness :
  proc_step LP64 (recv_item LP64 (empty_heap [true]))
            (Chan 1 0 (Segment 0 2 1 [x01; x02]) [])
  = (Ret (RecvResult 1 PUninit None (Heap ∅ 0 [])),
     Chan 0 0 (Segment 0 2 1 [x01; x02]) []).
Proof.
  apply (recv_item_first_allocation_fails LP64 (Chan 1 0 (Segment 0 2 1 [x01; x02]) [])
           (empty_heap [true]) []).
  - simpl. lia.
  - simpl. lia.
  - reflexivity.
Defined.

(** The result of the [malloc] of the reassembly buffer is not checked:
    when the first read succeeds and that allocation fails, [recv_item]
    copies the first fragment to [NULL]. *)
Theorem recv_item_buffer_allocation_fails c ch h rest :
  config_ok c -> 0 < r_sem ch -> 0 < seg_len (seg ch) <= payload_capacity c ->
  alloc_fails h = false :: true :: rest ->
  fst (proc_step c (recv_item c h) ch) = Crash UndefinedBehaviour.
Proof.
  intros Hc Hr Hlen Hf.
  assert (Hh : 0 <= header_size c)
    by (destruct Hc as (? & ? & ? & ? & ?); unfold header_size; lia).
  unfold recv_item, proc_step.
  rewrite read_general; [ | exact Hr | exact Hlen | exact Hh | rewrite Hf; reflexivity ].
  cbv iota beta zeta. cbn [rr_rt rr_data rr_len rr_total rr_id rr_heap fst].
  change (negb (0 =? 0)) with false. cbv iota.
  unfold malloc. cbn [alloc_fails blocks next_block]. rewrite Hf. cbn [tail].
  unfold memcpy. destruct (load _ _ _); reflexivity.
Qed.

Lemma recv_item_buffer_allocation_fails_witness :
  fst (proc_step LP64 (recv_item LP64 (empty_heap [false; true]))
                 (Chan 1 0 (Segment 0 2 1 [x01; x02]) []))
  = Crash UndefinedBehaviour.
Proof.
  apply (recv_item_buffer_allocation_fails LP64 (Chan 1 0 (Segment 0 2 1 [x01; x02]) [])
           (empty_heap [false; true]) []).
  - exact LP64_ok.
  - simpl. lia.
  - unfold payload_capacity, header_size. simpl. lia.
  - reflexivity.
Defined.

(** The fragment count of the header is not checked either: with a count
    of 0 the reassembly buffer has size 0 and the copy of the first
    fragment overflows it. *)
Theorem recv_item_count_zero c ch h :
  config_ok c -> 0 < r_sem ch -> 0 < seg_len (seg ch) <= payload_capacity c ->
  seg_total (seg ch) = 0 -> alloc_fails h = [] ->
  fst (proc_step c (recv_item c h) ch) = Crash UndefinedBehaviour.
Proof.
  intros Hc Hr Hlen Ht Hf.
  assert (Hh : 0 <= header_size c)
    by (destruct Hc as (? & ? & ? & ? & ?); unfold header_size; lia).
  assert (Hs : 0 < SIZE_MOD c) by (apply SIZE_MOD_pos; destruct Hc as (_ & ? & _); lia).
  unfold recv_item, proc_step.
  rewrite read_general; [ | exact Hr | exact Hlen | exact Hh | rewrite Hf; reflexivity ].
  cbv iota beta zeta. cbn [rr_rt rr_data rr_len rr_total rr_id rr_heap fst].
  change (negb (0 =? 0)) with false. cbv iota.
  rewrite Ht. change (0 * seg_len (seg ch)) with 0.
  rewrite (to_size_t_small c 0) by lia.
  rewrite malloc_succeeds by (cbn [alloc_fails]; rewrite Hf; reflexivity).
  cbn [blocks next_block alloc_fails]. change (Z.to_nat 0) with 0%nat. cbn [replicate].
  unfold memcpy, load. cbn [blocks].
  rewrite lookup_insert_ne by lia. rewrite lookup_insert_eq.
  rewrite length_fmap, length_resize.
  replace (seg_len (seg ch) <=? Z.of_nat (Z.to_nat (seg_len (seg ch)))) with true
    by (symmetry; apply Z.leb_le; lia).
  unfold store. cbn [blocks]. rewrite lookup_insert_eq.
  replace (0 + Z.of_nat (length (take (Z.to_nat (seg_len (seg ch)))
             (Some <$> resize (Z.to_nat (seg_len (seg ch))) x00 (seg_payload (seg ch)))))
           <=? Z.of_nat (length (@nil (option byte)))) with false.
  - reflexivity.
  - symmetry. apply Z.leb_gt. rewrite length_take, length_fmap, length_resize. cbn [length]. lia.
Qed.

Lemma recv_item_count_zero_witness :
  fst (proc_step LP64 (recv_item LP64 (empty_heap []))
                 (Chan 1 0 (Segment 0 2 0 [x01; x02]) []))
  = Crash UndefinedBehaviour.
Proof.
  apply (recv_item_count_zero LP64 (Chan 1 0 (Segment 0 2 0 [x01; x02]) []) (empty_heap [])).
  - exact LP64_ok.
  - simpl. lia.
  - unfold payload_capacity, header_size. simpl. lia.
  - reflexivity.
  - reflexivity.
Defined.

(** A pending read whose continuation does not use the id goes on in the
    same way whatever the id word of the segment is. *)
Lemma call_read_ignores_id {A : Type} c h d (k : read_result -> proc A) x ch :
  (forall rt dt len tot id id' hp,
     k (ReadResult rt dt len tot id hp) = k (ReadResult rt dt len tot id' hp)) ->
  fst (proc_step c (CallRead h d k) (set_id x ch))
  = fst (proc_step c (CallRead h d k) ch).
Proof.
  intros Hk. unfold proc_step, read_shared_memory, beginRead, set_id.
  cbn [r_sem w_sem seg written seg_id seg_len seg_total seg_payload].
  destruct (sem_wait (r_sem ch)) as [r1|]; [|reflexivity].
  cbn [r_sem w_sem seg written seg_id seg_len seg_total seg_payload].
  destruct (orb (seg_len (seg ch) <=? 0) (MAX_BYTES c <? seg_len (seg ch)));
    [cbn [fst]; apply Hk|].
  destruct (malloc h (seg_len (seg ch))) as [h1 [| |b]]; try (cbn [fst]; apply Hk).
  destruct (mapping_size c <? header_size c + seg_len (seg ch)); [reflexivity|].
  match goal with |- context [store ?a ?b ?c ?d] => destruct (store a b c d) end;
    [cbn [fst]; apply Hk | reflexivity].
Qed.

(** [recv_item] never looks at the message id: at each of its reads, the
    first, those of the loop and the last, what it does next is the same
    for every value of the id word in the segment. *)
Theorem recv_item_ignores_message_id c x ch :
  (forall h, fst (proc_step c (recv_item c h) (set_id x ch))
             = fst (proc_step c (recv_item c h) ch)) /\
  (forall fuel d s t i h,
     fst (proc_step c (recv_loop c fuel d s t i h) (set_id x ch))
     = fst (proc_step c (recv_loop c fuel d s t i h) ch)).
Proof.
  split.
  - intros h. unfold recv_item. apply call_read_ignores_id. reflexivity.
  - intros fuel d s t i h. destruct fuel as [|fuel]; cbn [recv_loop].
    + unfold recv_last. destruct (1 <? t); [|reflexivity].
      apply call_read_ignores_id. reflexivity.
    + apply call_read_ignores_id. reflexivity.
Qed.

(** [send_item] with [len = 0] computes one fragment of length 0 and stops
    on the assertion of [write_shared_memory], before any wait: the channel
    is as it was. *)
Theorem send_item_empty_payload_aborts c data ch :
  config_ok c ->
  proc_step c (send_item c data 0) ch = (Crash AssertFailed, ch).
Proof.
  intros Hc. pose proof (maxlen_bounds c Hc) as [HM0 HM1].
  destruct Hc as (_ & Hs & _). pose proof (PTRDIFF_MAX_lt c Hs) as Hpd.
  unfold send_item, send_chunks.
  replace (maxlen c <? 0) with false by (symmetry; apply Z.ltb_ge; lia).
  rewrite Z.mul_1_l. rewrite (to_size_t_small c (maxlen c)) by lia.
  replace (maxlen c <? 0) with false by (symmetry; apply Z.ltb_ge; lia).
  change (Z.to_nat 1) with 1%nat. cbn [send_loop]. unfold send_ulen.
  change (1 =? 1) with true. cbv iota.
  unfold proc_step, write_shared_memory. change (0 <? 0) with false. reflexivity.
Qed.

Lemma send_item_empty_payload_aborts_witness :
  proc_step LP64 (send_item LP64 [] 0) fresh_chan = (Crash AssertFailed, fresh_chan).
Proof. apply (send_item_empty_payload_aborts LP64 [] fresh_chan LP64_ok). Defined.

(** ** A whole transfer *)

Section TransferFacts.
Variable c : config.
Hypothesis Hc : config_ok c.
Variable data : list byte.
Variable len : Z.
Hypothesis Hlen : 0 < len <= PTRDIFF_MAX c.
Hypothesis Hdata : len <= Z.of_nat (length data).

Local Abbreviation N := (send_chunks c len).
Local Abbreviation M := (maxlen c).

(** The payloads of the first [j + 1] fragments, one after the other, are
    the leading bytes of the message. *)
Lemma log_payloads j :
  Z.of_nat j < N ->
  concat (frag_payload <$> log_upto c data len (S j))
  = take (Z.to_nat (Z.of_nat j * M + send_ulen c len N (Z.of_nat j))) data.
Proof.
  induction j as [|j IH]; intros Hj.
  - assert (Hi : 0 <= Z.of_nat 0 < N) by lia.
    unfold log_upto. cbn [seq fmap list_fmap concat frag_at frag_payload].
    rewrite (send_ustart_eq c Hc len Hlen _ Hi), app_nil_r. reflexivity.
  - assert (Hi : 0 <= Z.of_nat (S j) < N) by lia.
    assert (Hi' : 0 <= Z.of_nat j < N) by lia.
    destruct (send_ulen_bounds c Hc len Hlen _ Hi') as (_ & _ & H3 & _).
    destruct (send_ulen_bounds c Hc len Hlen _ Hi) as ([H0 H1] & _).
    pose proof (maxlen_bounds c Hc) as [HM0 _].
    rewrite log_upto_S, fmap_app, concat_app, IH by lia.
    rewrite H3 by lia.
    cbn [fmap list_fmap concat frag_at frag_payload]. rewrite app_nil_r.
    rewrite (send_ustart_eq c Hc len Hlen _ Hi).
    replace (Z.to_nat (Z.of_nat j * M + M)) with (Z.to_nat (Z.of_nat (S j) * M)) by lia.
    rewrite take_take_drop. f_equal. nia.
Qed.

Lemma log_lengths j :
  Z.of_nat j < N ->
  foldr Z.add 0 (frag_len <$> log_upto c data len (S j))
  = Z.of_nat j * M + send_ulen c len N (Z.of_nat j).
Proof.
  induction j as [|j IH]; intros Hj.
  - unfold log_upto. cbn [seq fmap list_fmap foldr frag_at frag_len]. lia.
  - assert (Hi' : 0 <= Z.of_nat j < N) by lia.
    destruct (send_ulen_bounds c Hc len Hlen _ Hi') as (_ & _ & H3 & _).
    rewrite log_upto_S, fmap_app, foldr_app.
    cbn [fmap list_fmap foldr frag_at frag_len].
    assert (Hshift : forall (l : list Z) a, foldr Z.add a l = foldr Z.add 0 l + a).
    { induction l as [|x l IHl]; intros a; cbn [foldr]; [lia | rewrite IHl; lia]. }
    rewrite Hshift, IH by lia. rewrite H3 by lia. lia.
Qed.

(** The fragments [send_item] writes partition the message: their
    payloads, in the order written, concatenate to the [len] bytes of the
    message, and their lengths add up to [len]. *)
Theorem fragments_partition_message :
  let s := run c (alternate (Z.to_nat N)) (transfer c data len []) in
  concat (frag_payload <$> written (sys_chan s)) = take (Z.to_nat len) data /\
  foldr Z.add 0 (frag_len <$> written (sys_chan s)) = len /\
  Forall (fun f => 0 < frag_len f <= M /\ Z.of_nat (length (frag_payload f)) = frag_len f)
         (written (sys_chan s)).
Proof.
  intros s. unfold s. rewrite (transfer_completes c Hc data len Hlen Hdata).
  cbn [sys_chan chan_idle written].
  destruct (send_chunks_bounds c Hc len Hlen) as (HN1 & _).
  destruct (Z.to_nat N) as [|j] eqn:E; [lia|].
  assert (Hj : Z.of_nat j = N - 1) by lia.
  assert (Hi : 0 <= Z.of_nat j < N) by lia.
  destruct (send_ulen_bounds c Hc len Hlen _ Hi) as (_ & _ & _ & H4).
  rewrite log_payloads, log_lengths by lia.
  rewrite (H4 Hj). split; [reflexivity|]. split; [reflexivity|].
  unfold log_upto. apply Forall_fmap, Forall_forall. intros i Hin.
  apply elem_of_seq in Hin. cbn [compose].
  assert (Hi2 : 0 <= Z.of_nat i < N) by lia.
  destruct (send_ulen_bounds c Hc len Hlen _ Hi2) as (Hb & _).
  split; [exact Hb | apply (frag_payload_length c Hc data len Hlen Hdata _ Hi2)].
Qed.

(** After a transfer the blocks that are still allocated are the message
    buffer and, when there was more than one fragment, the buffer of the
    last fragment, which [recv_item] never frees. *)
Theorem recv_item_live_blocks :
  let s := run c (alternate (Z.to_nat N)) (transfer c data len []) in
  exists h,
    consumer s = Ret (RecvResult 0 (PBlock 1) (Some len) h) /\
    (forall b, is_Some (blocks h !! b) <-> b = 1%nat \/ (1 < N /\ b = Z.to_nat N)) /\
    (1 < N ->
     blocks h !! Z.to_nat N = Some (Some <$> frag_payload (frag_at c data len (N - 1)))).
Proof.
  intros s. unfold s. rewrite (transfer_completes c Hc data len Hlen Hdata).
  cbn [consumer]. eexists. split; [reflexivity|]. cbn [blocks].
  destruct (send_chunks_bounds c Hc len Hlen) as (HN1 & _).
  unfold final_blocks. destruct (N =? 1) eqn:E.
  - apply Z.eqb_eq in E. split; [|lia].
    intros b. rewrite lookup_singleton. destruct (decide (1%nat = b)) as [<-|Hne].
    + split; [auto | eauto].
    + split; [intros [x Hx]; discriminate Hx | intros [-> | [? _]]; [congruence | lia]].
  - apply Z.eqb_neq in E. split.
    + intros b. rewrite lookup_insert. destruct (decide (1%nat = b)) as [<-|Hne].
      * split; [auto | eauto].
      * rewrite lookup_insert. destruct (decide (Z.to_nat N = b)) as [<-|Hne2].
        -- split; [intros _; right; split; [lia | reflexivity] | eauto].
        -- rewrite lookup_singleton_ne by exact Hne.
           split; [intros [x Hx]; discriminate Hx | intros [-> | [_ ->]]; congruence].
    + intros _. rewrite lookup_insert_ne by lia. apply lookup_insert_eq.
Qed.

(** A step of [send_item] on a well-formed payload, on any channel, leads
    to a point of its loop. *)
Lemma producer_any_step j ch :
  (j <= Z.to_nat N)%nat ->
  exists j', (j' <= Z.to_nat N)%nat /\
             fst (proc_step c (producer_at c data len j) ch) = producer_at c data len j'.
Proof.
  intros Hj. destruct (Nat.eq_dec j (Z.to_nat N)) as [->|Hne].
  - exists (Z.to_nat N). split; [lia|]. rewrite producer_done by lia. reflexivity.
  - assert (Hi : 0 <= Z.of_nat j < N) by lia.
    destruct (send_ulen_bounds c Hc len Hlen _ Hi) as ([H0 H1] & H2 & _).
    pose proof (maxlen_le_write_bound c Hc) as HMw.
    unfold producer_at at 1.
    replace (Z.to_nat N - j)%nat with (S (Z.to_nat N - S j)) by lia.
    cbn [send_loop]. unfold proc_step.
    destruct (Z_lt_le_dec 0 (w_sem ch)) as [Hw|Hw].
    + exists (S j). split; [lia|].
      rewrite write_ready; [ | lia | | exact Hw ].
      * cbn [fst]. change (0 =? 0) with true. cbv iota. unfold producer_at.
        f_equal. lia.
      * rewrite length_drop, (send_ustart_eq c Hc len Hlen _ Hi). nia.
    + exists j. split; [lia|].
      rewrite write_blocked; [ | lia | exact Hw ].
      cbn [fst]. unfold producer_at.
      replace (Z.to_nat N - j)%nat with (S (Z.to_nat N - S j)) by lia. reflexivity.
Qed.

Lemma send_item_stays_in_loop sched : forall ch (peer : proc recv_result),
  exists j, (j <= Z.to_nat N)%nat /\
            producer (run c sched (System ch (send_item c data len) peer))
            = producer_at c data len j.
Proof.
  assert (Hgen : forall s j, (j <= Z.to_nat N)%nat -> producer s = producer_at c data len j ->
            exists j', (j' <= Z.to_nat N)%nat /\
                       producer (run c sched s) = producer_at c data len j').
  { induction sched as [|who sched' IH]; intros s j Hj Hp; [eauto|].
    unfold run in *. cbn [fold_left].
    destruct who; unfold sys_step.
    - destruct (producer_any_step j (sys_chan s) Hj) as (j' & Hj' & Hstep).
      rewrite Hp. destruct (proc_step c (producer_at c data len j) (sys_chan s)) as [p' ch'].
      cbn [fst] in Hstep. apply (IH _ j' Hj'). exact Hstep.
    - destruct (proc_step c (consumer s) (sys_chan s)) as [p' ch'].
      apply (IH _ j Hj). exact Hp. }
  intros ch peer. apply (Hgen _ 0%nat); [lia|].
  cbn [producer]. unfold producer_at, send_item. rewrite Nat.sub_0_r. reflexivity.
Qed.

(** Whatever the channel holds and whatever the other end does,
    [send_item] on a well-formed payload is always at one of the points of
    its loop: none of its writes fails the assertion or copies from outside
    of the payload, and it does not return 1. *)
Theorem send_item_never_stops_early sched ch (peer : proc recv_result) :
  let p := producer (run c sched (System ch (send_item c data len) peer)) in
  (exists j, (j <= Z.to_nat N)%nat /\
             p = send_loop c (Z.to_nat N - j) data len N (Z.of_nat j)) /\
  (forall w, p <> Crash w) /\ p <> Ret 1.
Proof.
  intros p. destruct (send_item_stays_in_loop sched ch peer) as (j & Hj & Hp).
  fold p in Hp. split; [exists j; split; [exact Hj | exact Hp]|].
  rewrite Hp. unfold producer_at.
  destruct (Z.to_nat N - j)%nat; cbn [send_loop];
    (split; [intros w H; discriminate H | intros H; discriminate H]).
Qed.

(** Under every schedule the channel of a transfer is idle, (R,W) = (0,1)
    with a zeroed segment, or holds exactly the next fragment, (R,W) =
    (1,0); the fragments written so far are the first ones of the message,
    in order, none lost and none twice. *)
Theorem transfer_channel_invariant sched :
  let s := run c sched (transfer c data len []) in
  exists j, (j <= Z.to_nat N)%nat /\
    written (sys_chan s) = (fun i : nat => frag_at c data len (Z.of_nat i)) <$> seq 0 j /\
    ((r_sem (sys_chan s), w_sem (sys_chan s)) = (0, 1) /\ seg (sys_chan s) = zero_segment \/
     (r_sem (sys_chan s), w_sem (sys_chan s)) = (1, 0) /\ (0 < j)%nat /\
     seg (sys_chan s) =
       (let f := frag_at c data len (Z.of_nat (j - 1)) in
        Segment (frag_id f) (frag_len f) (frag_total f) (frag_payload f))).
Proof.
  intros s. unfold s.
  destruct (run_canonical c Hc data len Hlen Hdata sched (transfer c data len []))
    as (j & [[Hj ->] | [Hj ->]]).
  { exists 0%nat. left. split; [lia | apply transfer_canon]. }
  - exists j. split; [exact Hj|]. cbn [canon_idle sys_chan chan_idle written r_sem w_sem seg].
    split; [reflexivity|]. left. auto.
  - exists (S j). split; [lia|].
    cbn [canon_full sys_chan chan_full written r_sem w_sem seg].
    split; [reflexivity|]. right. split; [reflexivity|]. split; [lia|].
    replace (S j - 1)%nat with j by lia. reflexivity.
Qed.

Lemma run_app sched1 sched2 s : run c (sched1 ++ sched2) s = run c sched2 (run c sched1 s).
Proof. unfold run. apply fold_left_app. Qed.

Lemma run_alternate_to_end k : forall j,
  (j <= Z.to_nat N)%nat -> (Z.to_nat N - j <= k)%nat ->
  run c (alternate k) (canon_idle c data len j) = canon_idle c data len (Z.to_nat N).
Proof.
  induction k as [|k IH]; intros j Hj Hk.
  - replace j with (Z.to_nat N) by lia. reflexivity.
  - cbn [alternate]. unfold run in *. cbn [fold_left].
    destruct (Nat.eq_dec j (Z.to_nat N)) as [->|Hne].
    + rewrite step_producer_end by (assumption || lia).
      rewrite step_consumer_idle. apply IH; lia.
    + rewrite step_producer_idle by (assumption || lia).
      rewrite step_consumer_full by (assumption || lia).
      apply IH; lia.
Qed.

(** No schedule can wedge a transfer: after any sequence of steps, letting
    producer and consumer run in turn as many times as there are fragments
    completes it, with [send_item] returned 0 and [recv_item] returned the
    message. *)
Theorem transfer_cannot_wedge sched :
  run c (sched ++ alternate (Z.to_nat N)) (transfer c data len [])
  = System (chan_idle c data len (Z.to_nat N)) (Ret 0) (Ret (final_result c data len)).
Proof.
  rewrite run_app.
  destruct (send_chunks_bounds c Hc len Hlen) as (HN1 & _).
  assert (Hend : canon_idle c data len (Z.to_nat N)
                 = System (chan_idle c data len (Z.to_nat N)) (Ret 0)
                          (Ret (final_result c data len))).
  { unfold canon_idle.
    rewrite producer_done, consumer_done by (assumption || lia).
    reflexivity. }
  destruct (run_canonical c Hc data len Hlen Hdata sched (transfer c data len []))
    as (j & [[Hj ->] | [Hj ->]]).
  { exists 0%nat. left. split; [lia | apply transfer_canon]. }
  - rewrite run_alternate_to_end by lia. exact Hend.
  - destruct (Z.to_nat N) as [|n] eqn:E; [lia|].
    cbn [alternate]. unfold run. cbn [fold_left].
    rewrite step_producer_full by (assumption || lia).
    rewrite step_consumer_full by (assumption || lia).
    fold (run c (alternate n) (canon_idle c data len (S j))).
    rewrite <- E in *. rewrite run_alternate_to_end by lia. exact Hend.
Qed.
End TransferFacts.

Lemma msg10_in_range : 0 < 10 <= PTRDIFF_MAX tiny /\ 10 <= Z.of_nat (length msg10).
Proof. unfold PTRDIFF_MAX. simpl. lia. Qed.

Lemma fragments_partition_message_witness :
  concat (frag_payload <$> written (sys_chan (run tiny (alternate 3) (transfer tiny msg10 10 []))))
  = msg10.
Proof.
  destruct msg10_in_range as [Hlen Hdata].
  exact (proj1 (fragments_partition_message tiny tiny_ok msg10 10 Hlen Hdata)).
Defined.

Lemma recv_item_live_blocks_witness :
  exists h,
    consumer (run tiny (alternate 3) (transfer tiny msg10 10 []))
    = Ret (RecvResult 0 (PBlock 1) (Some 10) h) /\
    blocks h !! 3%nat = Some [Some x09; Some x0a].
Proof.
  destruct msg10_in_range as [Hlen Hdata].
  destruct (recv_item_live_blocks tiny tiny_ok msg10 10 Hlen Hdata) as (h & Hr & _ & Hb).
  exists h. split; [exact Hr|]. apply Hb. vm_compute. reflexivity.
Defined.

Lemma send_item_never_stops_early_witness :
  producer (run tiny [Producer; Producer; Consumer]
              (System (Chan 0 1 zero_segment []) (send_item tiny msg10 10) (Ret (RecvResult 0 PNull None (empty_heap [])))))
  <> Ret 1.
Proof.
  destruct msg10_in_range as [Hlen Hdata].
  exact (proj2 (proj2 (send_item_never_stops_early tiny tiny_ok msg10 10 Hlen Hdata
                         [Producer; Producer; Consumer] (Chan 0 1 zero_segment [])
                         (Ret (RecvResult 0 PNull None (empty_heap [])))))).
Defined.

Lemma transfer_channel_invariant_witness :
  exists j, (j <= 3)%nat /\
    written (sys_chan (run tiny [Producer; Consumer; Consumer; Producer]
                           (transfer tiny msg10 10 [])))
    = (fun i : nat => frag_at tiny msg10 10 (Z.of_nat i)) <$> seq 0 j.
Proof.
  destruct msg10_in_range as [Hlen Hdata].
  destruct (transfer_channel_invariant tiny tiny_ok msg10 10 Hlen Hdata
              [Producer; Consumer; Consumer; Producer]) as (j & Hj & Hw & _).
  exists j. split; [exact Hj | exact Hw].
Defined.

Lemma transfer_cannot_wedge_witness :
  producer (run tiny ([Consumer; Producer; Producer; Consumer; Consumer] ++ alternate 3)
                (transfer tiny msg10 10 []))
  = Ret 0.
Proof.
  destruct msg10_in_range as [Hlen Hdata].
  pose proof (transfer_cannot_wedge tiny tiny_ok msg10 10 Hlen Hdata
                [Consumer; Producer; Producer; Consumer; Consumer]) as H.
  change (Z.to_nat (send_chunks tiny 10)) with 3%nat in H.
  rewrite H. reflexivity.
Defined.

(** ** More on the life cycle *)

Lemma os_ext a b :
  (forall k, sems a !! k = sems b !! k) -> (forall k, shms a !! k = shms b !! k) -> a = b.
Proof.
  destruct a as [sa ha], b as [sb hb]. cbn [sems shms]. intros Hs Hh.
  f_equal; apply map_eq; assumption.
Qed.

(** [open_shared_memory] and [create_shared_memory] are the same function
    of the name space: they make the same calls with the same flags and
    differ only in the order of the unlinks on the failure paths. *)
Theorem open_is_create c f o name w r :
  open_shared_memory c f o name w r = create_shared_memory c f o name w r.
Proof.
  unfold open_shared_memory, create_shared_memory.
  destruct (sem_open o w 1 (w_sem_fails f)) as [o1 [hw|]]; [|reflexivity].
  destruct (sem_open o1 r 0 (r_sem_fails f)) as [o2 [hr|]].
  - destruct (shm_open o2 name (shm_open_fails f)) as [o3 [fd|]]; [|reflexivity].
    destruct (ftruncate_answer f); reflexivity.
  - unfold sem_unlink. cbn [sems shms]. rewrite (delete_delete _ r w). reflexivity.
Qed.

Ltac lookups :=
  cbn [sems shms sem_unlink shm_unlink close_shared_memory ftruncate];
  repeat (first [ rewrite lookup_delete | rewrite lookup_insert | rewrite lookup_alter
                 | case_decide ];
          subst; cbn [fmap option_fmap option_map]);
  try congruence.

(** On three names that do not exist, [create_shared_memory] followed by
    [close_shared_memory] leaves the name space exactly as it was, whatever
    the calls answered; and a [create_shared_memory] that fails leaves it
    so by itself. *)
Theorem create_then_close c f o name w r :
  sems o !! w = None -> sems o !! r = None -> shms o !! name = None ->
  forall rc o' self,
    create_shared_memory c f o name w r = (rc, o', self) ->
    close_shared_memory o' name w r = o /\ (rc = 1 -> o' = o).
Proof.
  intros Hw Hr Hn rc o' self. unfold create_shared_memory, sem_open, shm_open.
  destruct f as [fw fr fs ft fm].
  cbn [w_sem_fails r_sem_fails shm_open_fails ftruncate_answer mmap_fails].
  destruct fw.
  { intros [= <- <- <-]. split; [|intros _]; apply os_ext; intros k; lookups. }
  rewrite Hw. cbn [sems shms].
  destruct fr.
  { intros [= <- <- <-]. split; [|intros _]; apply os_ext; intros k; lookups. }
  destruct (<[w:=1]> (sems o) !! r) eqn:E2; cbn [sems shms].
  - destruct fs.
    { intros [= <- <- <-]. split; [|intros _]; apply os_ext; intros k; lookups. }
    rewrite Hn. cbn [sems shms].
    destruct ft; [destruct fm | destruct fm | ]; intros [= <- <- <-];
      (split; [|intros Hrc; try discriminate Hrc]; apply os_ext; intros k; lookups).
  - destruct fs.
    { intros [= <- <- <-]. split; [|intros _]; apply os_ext; intros k; lookups. }
    rewrite Hn. cbn [sems shms].
    destruct ft; [destruct fm | destruct fm | ]; intros [= <- <- <-];
      (split; [|intros Hrc; try discriminate Hrc]; apply os_ext; intros k; lookups).
Qed.

Lemma create_then_close_witness :
  let o := OS {[ "other" := 5 ]} ∅ in
  close_shared_memory (snd (fst (create_shared_memory LP64 no_faults o "seg" "wsem" "rsem")))
                      "seg" "wsem" "rsem" = o.
Proof.
  intros o.
  destruct (create_shared_memory LP64 no_faults o "seg" "wsem" "rsem") as [[rc o'] self] eqn:E.
  exact (proj1 (create_then_close LP64 no_faults o "seg" "wsem" "rsem"
                  eq_refl eq_refl eq_refl rc o' self E)).
Defined.

(** The roll-back does not tell the resources the call created from the
    ones it found: a [create_shared_memory] on the names of a live channel
    whose sizing or mapping fails returns 1 and has unlinked the live
    channel; every other name is untouched. *)
Theorem failed_create_unlinks_live_channel c f o name w r :
  is_Some (sems o !! w) -> is_Some (sems o !! r) -> is_Some (shms o !! name) ->
  w_sem_fails f = false -> r_sem_fails f = false -> shm_open_fails f = false ->
  ftruncate_answer f = FtError \/ mmap_fails f = true ->
  exists o' self,
    create_shared_memory c f o name w r = (1, o', self) /\
    sems o' !! w = None /\ sems o' !! r = None /\ shms o' !! name = None /\
    (forall k, k <> w -> k <> r -> sems o' !! k = sems o !! k) /\
    (forall k, k <> name -> shms o' !! k = shms o !! k).
Proof.
  intros [vw Hw] [vr Hr] [obj Hn] Fw Fr Fs Ff.
  unfold create_shared_memory, sem_open, shm_open.
  rewrite Fw, Fr, Fs, Hw, Hr, Hn.
  destruct (ftruncate_answer f) eqn:Ft.
  - destruct Ff as [Ff|Ff]; [discriminate Ff|]. rewrite Ff.
    eexists _, _. split; [reflexivity|].
    repeat split; try (intros k H1 H2); try (intros k H1); lookups.
  - destruct Ff as [Ff|Ff]; [discriminate Ff|]. rewrite Ff.
    eexists _, _. split; [reflexivity|].
    repeat split; try (intros k H1 H2); try (intros k H1); lookups.
  - eexists _, _. split; [reflexivity|].
    repeat split; try (intros k H1 H2); try (intros k H1); lookups.
Qed.

Lemma failed_create_unlinks_live_channel_witness :
  let o := OS {[ "wsem" := 0; "rsem" := 1 ]}
              {[ "seg" := ShmObject 4000000 (Segment 0 2 1 [x01; x02]) ]} in
  exists o' self,
    create_shared_memory LP64 (Faults false false false FtOk true) o "seg" "wsem" "rsem"
    = (1, o', self) /\ sems o' !! "rsem" = None /\ shms o' !! "seg" = None.
Proof.
  intros o.
  assert (Hw : is_Some (sems o !! "wsem")) by (vm_compute; eauto).
  assert (Hr : is_Some (sems o !! "rsem")) by (vm_compute; eauto).
  assert (Hn : is_Some (shms o !! "seg")) by (vm_compute; eauto).
  destruct (failed_create_unlinks_live_channel LP64 (Faults false false false FtOk true)
              o "seg" "wsem" "rsem" Hw Hr Hn eq_refl eq_refl eq_refl (or_intror eq_refl))
    as (o' & self & Hc & _ & Hr' & Hn' & _).
  exists o', self. split; [exact Hc|]. split; [exact Hr' | exact Hn'].
Defined.

(** [close_shared_memory] removes the three names and nothing else, and a
    second call changes nothing more. *)
Theorem close_removes_exactly_the_triple o name w r :
  let o' := close_shared_memory o name w r in
  sems o' !! w = None /\ sems o' !! r = None /\ shms o' !! name = None /\
  (forall k, k <> w -> k <> r -> sems o' !! k = sems o !! k) /\
  (forall k, k <> name -> shms o' !! k = shms o !! k) /\
  close_shared_memory o' name w r = o'.
Proof.
  intros o'. unfold o'.
  repeat split; try (intros k H1 H2); try (intros k H1); try lookups.
  apply os_ext; intros k; lookups.
Qed.

(** On three names that do not exist, and with two different semaphore
    names, a [create_shared_memory] whose calls all succeed returns 0 and
    leaves the write semaphore at 1, the read semaphore at 0 and a zeroed
    object of [MAX_BYTES] bytes: the state (R,W) = (0,1); every other name
    is untouched. *)
Theorem create_on_fresh_names c o name w r :
  0 < MAX_BYTES c ->
  sems o !! w = None -> sems o !! r = None -> shms o !! name = None -> w <> r ->
  exists o',
    create_shared_memory c no_faults o name w r
    = (0, o', SharedMemory (Some w) (Some r) (Some name) (Some name)) /\
    handshake_of o' w r = (Some 0, Some 1) /\
    shms o' !! name = Some (ShmObject (MAX_BYTES c) zero_segment) /\
    (forall k, k <> w -> k <> r -> sems o' !! k = sems o !! k) /\
    (forall k, k <> name -> shms o' !! k = shms o !! k).
Proof.
  intros Hmax Hw Hr Hn Hne.
  unfold create_shared_memory, sem_open, shm_open, no_faults.
  cbn [w_sem_fails r_sem_fails shm_open_fails ftruncate_answer mmap_fails].
  rewrite Hw. cbn [sems shms]. rewrite lookup_insert_ne by exact Hne. rewrite Hr.
  cbn [sems shms]. rewrite Hn.
  eexists. split; [reflexivity|]. unfold handshake_of.
  split; [f_equal; lookups|].
  split.
  - cbn [ftruncate shms]. rewrite lookup_alter_eq, lookup_insert_eq.
    cbn [fmap option_fmap option_map]. unfold resize_object. cbn [shm_size shm_seg].
    replace (0 =? MAX_BYTES c) with false by (symmetry; apply Z.eqb_neq; lia).
    unfold zero_segment. cbn [seg_id seg_len seg_total seg_payload]. rewrite take_nil.
    reflexivity.
  - split; [intros k H1 H2 | intros k H1]; lookups.
Qed.

Lemma create_on_fresh_names_witness :
  exists o',
    create_shared_memory LP64 no_faults empty_os "seg" "wsem" "rsem"
    = (0, o', SharedMemory (Some "wsem") (Some "rsem") (Some "seg") (Some "seg")) /\
    handshake_of o' "wsem" "rsem" = (Some 0, Some 1).
Proof.
  assert (Hne : "wsem" <> "rsem") by (intros [=]).
  destruct (create_on_fresh_names LP64 empty_os "seg" "wsem" "rsem"
              ltac:(simpl; lia) eq_refl eq_refl eq_refl Hne) as (o' & Hc & Hh & _).
  exists o'. split; [exact Hc | exact Hh].
Defined.

(** An [EINVAL] from [ftruncate] is not treated as a failure: on a fresh
    name [create_shared_memory] then returns 0 with an object that was
    never sized. *)
Theorem create_tolerates_einval c o name w r :
  shms o !! name = None ->
  exists o' self,
    create_shared_memory c (Faults false false false FtEINVAL false) o name w r
    = (0, o', self) /\
    sm_data self = Some name /\
    shms o' !! name = Some (ShmObject 0 zero_segment).
Proof.
  intros Hn. unfold create_shared_memory.
  cbn [w_sem_fails r_sem_fails shm_open_fails ftruncate_answer mmap_fails].
  destruct (sem_open_ok o w 1) as (o1 & -> & Hs1 & _).
  destruct (sem_open_ok o1 r 0) as (o2 & -> & Hs2 & _).
  unfold shm_open. rewrite Hs2, Hs1, Hn.
  eexists _, _. split; [reflexivity|]. split; [reflexivity|].
  cbn [ftruncate shms]. apply lookup_insert_eq.
Qed.

Lemma create_tolerates_einval_witness :
  exists o' self,
    create_shared_memory LP64 (Faults false false false FtEINVAL false) empty_os
                         "seg" "wsem" "rsem" = (0, o', self) /\
    shms o' !! "seg" = Some (ShmObject 0 zero_segment).
Proof.
  destruct (create_tolerates_einval LP64 empty_os "seg" "wsem" "rsem" eq_refl)
    as (o' & self & Hc & _ & Hs).
  exists o', self. split; [exact Hc | exact Hs].
Defined.

(** ** One channel, several messages *)

(** The history of the channel is only ever appended to: a longer past
    changes nothing but the history. *)
Lemma proc_step_with_log {A : Type} c l (p : proc A) ch :
  proc_step c p (with_log l ch)
  = (fst (proc_step c p ch), with_log l (snd (proc_step c p ch))).
Proof.
  destruct p as [a | w | data len id total k | h d k]; cbn [proc_step fst snd];
    try reflexivity.
  - unfold write_shared_memory, beginWrite, with_log. cbn [r_sem w_sem seg written].
    destruct (negb _); [reflexivity|].
    destruct (sem_wait (w_sem ch)) as [w1|]; [|reflexivity].
    destruct (Z.of_nat (length data) <? len); [reflexivity|].
    cbn [fst snd]. unfold endWrite. cbn [r_sem w_sem seg written].
    rewrite app_assoc. reflexivity.
  - unfold read_shared_memory, beginRead, with_log. cbn [r_sem w_sem seg written].
    destruct (sem_wait (r_sem ch)) as [r1|]; [|reflexivity].
    cbn [r_sem w_sem seg written].
    destruct (orb (seg_len (seg ch) <=? 0) (MAX_BYTES c <? seg_len (seg ch)));
      [reflexivity|].
    destruct (malloc h (seg_len (seg ch))) as [h1 [| |b]]; try reflexivity.
    destruct (mapping_size c <? header_size c + seg_len (seg ch)); [reflexivity|].
    match goal with |- context [store ?a ?b ?c ?d] => destruct (store a b c d) end;
      reflexivity.
Qed.

Lemma run_with_log c l sched : forall ch (p : proc Z) (q : proc recv_result),
  run c sched (System (with_log l ch) p q)
  = System (with_log l (sys_chan (run c sched (System ch p q))))
           (producer (run c sched (System ch p q)))
           (consumer (run c sched (System ch p q))).
Proof.
  induction sched as [|who sched IH]; intros ch p q; [reflexivity|].
  unfold run in *. cbn [fold_left].
  destruct who; unfold sys_step; cbn [sys_chan producer consumer];
    rewrite proc_step_with_log.
  - destruct (proc_step c p ch) as [p' ch']. cbn [fst snd]. apply IH.
  - destruct (proc_step c q ch) as [q' ch']. cbn [fst snd]. apply IH.
Qed.

(** A completed transfer leaves the channel as [create_shared_memory] left
    it, so the channel serves the next message in the same way: two
    messages sent one after the other both arrive, and the fragments of the
    second are written after all those of the first. The consumer starts
    each [recv_item] on an empty heap. *)
Theorem two_messages_in_a_row c m1 m2 :
  config_ok c ->
  0 < Z.of_nat (length m1) <= PTRDIFF_MAX c ->
  0 < Z.of_nat (length m2) <= PTRDIFF_MAX c ->
  let len1 := Z.of_nat (length m1) in
  let len2 := Z.of_nat (length m2) in
  let s1 := run c (alternate (Z.to_nat (send_chunks c len1))) (transfer c m1 len1 []) in
  let s2 := run c (alternate (Z.to_nat (send_chunks c len2)))
                (System (sys_chan s1) (send_item c m2 len2) (recv_item c (empty_heap []))) in
  producer s1 = Ret 0 /\ producer s2 = Ret 0 /\
  (exists h, consumer s1 = Ret (RecvResult 0 (PBlock 1) (Some len1) h) /\
             blocks h !! 1%nat = Some (Some <$> m1)) /\
  (exists h, consumer s2 = Ret (RecvResult 0 (PBlock 1) (Some len2) h) /\
             blocks h !! 1%nat = Some (Some <$> m2)) /\
  written (sys_chan s2)
  = (law_fragment c m1 len1 <$> seqZ 0 (send_chunks c len1))
    ++ (law_fragment c m2 len2 <$> seqZ 0 (send_chunks c len2)) /\
  (r_sem (sys_chan s2), w_sem (sys_chan s2)) = (0, 1) /\ seg (sys_chan s2) = zero_segment.
Proof.
  intros Hc Hl1 Hl2 len1 len2 s1 s2.
  assert (Hd1 : len1 <= Z.of_nat (length m1)) by (unfold len1; lia).
  assert (Hd2 : len2 <= Z.of_nat (length m2)) by (unfold len2; lia).
  assert (Hm1 : take (Z.to_nat len1) m1 = m1) by (apply take_ge; unfold len1; lia).
  assert (Hm2 : take (Z.to_nat len2) m2 = m2) by (apply take_ge; unfold len2; lia).
  pose proof (final_result_message c m1 len1) as Hf1. rewrite Hm1 in Hf1.
  pose proof (final_result_message c m2 len2) as Hf2. rewrite Hm2 in Hf2.
  pose proof (transfer_completes c Hc m1 len1 Hl1 Hd1) as H1. fold s1 in H1.
  assert (H2 : s2 = System (with_log (log_upto c m1 len1 (Z.to_nat (send_chunks c len1)))
                              (chan_idle c m2 len2 (Z.to_nat (send_chunks c len2))))
                           (Ret 0) (Ret (final_result c m2 len2))).
  { assert (Hch : sys_chan s1
                  = with_log (log_upto c m1 len1 (Z.to_nat (send_chunks c len1))) fresh_chan).
    { rewrite H1. unfold with_log, fresh_chan, chan_idle.
      cbn [sys_chan r_sem w_sem seg written]. rewrite app_nil_r. reflexivity. }
    unfold s2. rewrite Hch, run_with_log.
    fold (transfer c m2 len2 []).
    rewrite (transfer_completes c Hc m2 len2 Hl2 Hd2).
    reflexivity. }
  rewrite H2, H1. cbn [producer consumer sys_chan with_log chan_idle r_sem w_sem seg written].
  split; [reflexivity|]. split; [reflexivity|].
  split; [eexists; split; [reflexivity | exact Hf1]|].
  split; [eexists; split; [reflexivity | exact Hf2]|].
  split; [|split; reflexivity].
  rewrite (log_upto_law c Hc m1 len1 Hl1), (log_upto_law c Hc m2 len2 Hl2). reflexivity.
Qed.

Lemma two_messages_in_a_row_witness :
  let s1 := run tiny (alternate 3) (transfer tiny msg10 10 []) in
  let s2 := run tiny (alternate 8)
                (System (sys_chan s1) (send_item tiny msg29 29) (recv_item tiny (empty_heap []))) in
  exists h, consumer s2 = Ret (RecvResult 0 (PBlock 1) (Some 29) h) /\
            blocks h !! 1%nat = Some (Some <$> msg29).
Proof.
  intros s1 s2.
  assert (Hl1 : 0 < Z.of_nat (length msg10) <= PTRDIFF_MAX tiny)
    by (unfold PTRDIFF_MAX; simpl; lia).
  assert (Hl2 : 0 < Z.of_nat (length msg29) <= PTRDIFF_MAX tiny)
    by (unfold PTRDIFF_MAX; simpl; lia).
  destruct (two_messages_in_a_row tiny msg10 msg29 tiny_ok Hl1 Hl2)
    as (_ & _ & _ & H & _).
  exact H.
Defined.

(** ** Back-pressure *)

Section BackPressure.
Variable c : config.
Hypothesis Hc : config_ok c.
Variable data : list byte.
Variable len : Z.
Hypothesis Hlen : 0 < len <= PTRDIFF_MAX c.
Hypothesis Hdata : len <= Z.of_nat (length data).

Lemma run_producer_only k :
  run c (replicate (S k) Producer) (transfer c data len []) = canon_full c data len 0.
Proof.
  destruct (send_chunks_bounds c Hc len Hlen) as (HN1 & _).
  rewrite transfer_canon. cbn [replicate]. unfold run. cbn [fold_left].
  rewrite step_producer_idle by (assumption || lia).
  induction k as [|k IH]; [reflexivity|].
  cbn [replicate fold_left]. rewrite step_producer_full by (assumption || lia). exact IH.
Qed.

Lemma run_consumer_only k :
  run c (replicate k Consumer) (transfer c data len []) = transfer c data len [].
Proof.
  rewrite transfer_canon. unfold run.
  induction k as [|k IH]; [reflexivity|].
  cbn [replicate fold_left]. rewrite step_consumer_idle. exact IH.
Qed.

(** Without the other end nothing overruns the segment: however often it
    is scheduled, [send_item] alone writes its first fragment and no more,
    and a further [send_item] on that channel stays at its first write;
    [recv_item] alone stays at its first read and the channel is as it
    was. *)
Theorem one_fragment_in_flight k :
  let s := run c (replicate (S k) Producer) (transfer c data len []) in
  written (sys_chan s) = [frag_at c data len 0] /\
  (r_sem (sys_chan s), w_sem (sys_chan s)) = (1, 0) /\
  consumer s = recv_item c (empty_heap []) /\
  (forall data2 len2,
     0 < len2 <= PTRDIFF_MAX c ->
     proc_step c (send_item c data2 len2) (sys_chan s) = (send_item c data2 len2, sys_chan s)) /\
  run c (replicate k Consumer) (transfer c data len []) = transfer c data len [].
Proof.
  intros s. unfold s. rewrite run_producer_only.
  cbn [canon_full sys_chan consumer chan_full written r_sem w_sem consumer_at].
  split; [reflexivity|]. split; [reflexivity|]. split; [reflexivity|].
  split; [|apply run_consumer_only].
  intros data2 len2 Hlen2.
  destruct (send_chunks_bounds c Hc len2 Hlen2) as (HN1 & _).
  assert (Hi : 0 <= 0 < send_chunks c len2) by lia.
  destruct (send_ulen_bounds c Hc len2 Hlen2 0 Hi) as ([H0 H1] & _).
  pose proof (maxlen_le_write_bound c Hc) as HMw.
  unfold send_item.
  destruct (Z.to_nat (send_chunks c len2)) as [|n] eqn:E; [lia|].
  cbn [send_loop]. unfold proc_step.
  rewrite write_blocked; [reflexivity | lia | cbn [w_sem chan_full canon_full sys_chan]; lia].
Qed.
End BackPressure.

Lemma one_fragment_in_flight_witness :
  written (sys_chan (run tiny (replicate 5 Producer) (transfer tiny msg10 10 [])))
  = [Fragment 0 4 3 [x01; x02; x03; x04]].
Proof.
  destruct msg10_in_range as [Hlen Hdata].
  exact (proj1 (one_fragment_in_flight tiny tiny_ok msg10 10 Hlen Hdata 4)).
Defined.
